(** * CMUTweetTagger: a pexpect wrapper around the ARK tweet tagger

    Shallow embedding of [CMUTweetTagger.py] (class [TweetTagger]) and of
    the Python built-ins it relies on, followed by the properties of the
    request framing and of the response parser.

    Conventions.
    - A Python [str] is a list of Unicode code points, a [bytes] object a
      list of octets; both are lists of [N].
    - A Python call that can raise returns a [result]: [Ret v] or
      [Raise e].
    - The methods of [TweetTagger] run in the monad [M], which threads the
      interpreter state (the tagger object and the console) and keeps the
      state reached when an exception is raised, as Python does. *)

From Stdlib Require Import Ascii String.
From Stdlib Require Import List NArith ZArith Bool Lia.
From Stdlib Require Import Floats.SpecFloat.
Import ListNotations.
Local Open Scope N_scope.

(** ** Exceptions and results *)

Inductive exn : Type :=
| UnicodeEncodeError
| UnicodeDecodeError
| ValueError
| IndexError
| OSError
| TIMEOUT
| EOF.

Inductive result (A : Type) : Type :=
| Ret (a : A)
| Raise (e : exn).

Arguments Ret {A} a.
Arguments Raise {A} e.

Definition rbind {A B} (r : result A) (k : A -> result B) : result B :=
  match r with
  | Ret a => k a
  | Raise e => Raise e
  end.

Declare Scope result_scope.
Delimit Scope result_scope with result.
Notation "x <~ r ;; k" := (rbind r (fun x => k))
  (at level 61, r at next level, right associativity) : result_scope.

(** Left-to-right traversal; the first exception wins (a list
    comprehension, or [list] applied to a generator). *)
Fixpoint rmap {A B} (f : A -> result B) (l : list A) : result (list B) :=
  match l with
  | [] => Ret []
  | a :: l' =>
      match f a with
      | Raise e => Raise e
      | Ret b =>
          match rmap f l' with
          | Raise e => Raise e
          | Ret bs => Ret (b :: bs)
          end
      end
  end.

(** ** Strings and bytes *)

Definition str := list N.
Definition bytes := list N.

Definition TAB : N := 9.
Definition LF : N := 10.
Definition CR : N := 13.
Definition SP : N := 32.

Definition CRLF : list N := [CR; LF].
Definition CRLFCRLF : list N := [CR; LF; CR; LF].
(** ['\r\n\r\n\r\n'], the pattern [batch] waits for. *)
Definition marker : list N := [CR; LF; CR; LF; CR; LF].

(** ['Detected text input format'] *)
Definition banner : str :=
  [68; 101; 116; 101; 99; 116; 101; 100; 32;
   116; 101; 120; 116; 32;
   105; 110; 112; 117; 116; 32;
   102; 111; 114; 109; 97; 116].

(** ['Exception while tagging tweets'] *)
Definition msg_exception : str :=
  [69; 120; 99; 101; 112; 116; 105; 111; 110; 32;
   119; 104; 105; 108; 101; 32;
   116; 97; 103; 103; 105; 110; 103; 32;
   116; 119; 101; 101; 116; 115].

(** [printhead = '[ {:^15} ] '.format('Tagger')]: the six letters centred
    in fifteen columns, four blanks before and five after. *)
Definition printhead : str :=
  [91; 32] ++ [32; 32; 32; 32] ++ [84; 97; 103; 103; 101; 114]
           ++ [32; 32; 32; 32; 32] ++ [32; 93; 32].

(** *** Searching *)

Fixpoint starts_with (pre s : list N) : bool :=
  match pre, s with
  | [], _ => true
  | _ :: _, [] => false
  | p :: pre', c :: s' => (p =? c) && starts_with pre' s'
  end.

(** First occurrence of [pat] in [s]: what precedes it and what follows. *)
Fixpoint search (pat s : list N) {struct s} : option (list N * list N) :=
  if starts_with pat s then Some ([], skipn (length pat) s)
  else
    match s with
    | [] => None
    | c :: s' =>
        match search pat s' with
        | Some (pre, post) => Some (c :: pre, post)
        | None => None
        end
    end.

(** *** [split], [join], [count], [replace]

    [split_go sep skip cur s] scans [s] from the left.  [cur] holds the
    piece being built (reversed); [skip] counts the characters of a
    separator just matched that are still to be passed over, so matches
    never overlap. *)
Fixpoint split_go (sep : list N) (skip : nat) (cur : list N) (s : list N)
  : list (list N) :=
  match s with
  | [] => [rev cur]
  | c :: s' =>
      match skip with
      | S k => split_go sep k cur s'
      | O =>
          if starts_with sep s
          then rev cur :: split_go sep (pred (length sep)) [] s'
          else split_go sep 0 (c :: cur) s'
      end
  end.

(** [s.split(sep)]; an empty separator raises [ValueError]. *)
Definition str_split (sep s : list N) : result (list (list N)) :=
  match sep with
  | [] => Raise ValueError
  | _ :: _ => Ret (split_go sep 0 [] s)
  end.

(** [sep.join(l)] *)
Fixpoint str_join (sep : list N) (l : list (list N)) : list N :=
  match l with
  | [] => []
  | [x] => x
  | x :: l' => x ++ sep ++ str_join sep l'
  end.

Fixpoint count_go (sub : list N) (skip : nat) (s : list N) : nat :=
  match s with
  | [] => O
  | _ :: s' =>
      match skip with
      | S k => count_go sub k s'
      | O =>
          if starts_with sub s
          then S (count_go sub (pred (length sub)) s')
          else count_go sub 0 s'
      end
  end.

(** [s.count(sub)]: non-overlapping occurrences; the empty string is
    found between all characters and at both ends. *)
Definition str_count (sub s : list N) : nat :=
  match sub with
  | [] => S (length s)
  | _ :: _ => count_go sub 0 s
  end.

(** [s.replace(old, new)] *)
Definition str_replace (old new s : list N) : list N :=
  match old with
  | [] => new ++ flat_map (fun c => c :: new) s
  | _ :: _ => str_join new (split_go old 0 [] s)
  end.

(** *** Whitespace and [strip] *)

(** [str.isspace] on one code point (Unicode White_Space or
    bidirectional type WS, B, S). *)
Definition isspace (c : N) : bool :=
  ((9 <=? c) && (c <=? 13)) || ((28 <=? c) && (c <=? 32))
  || (c =? 0x85) || (c =? 0xA0) || (c =? 0x1680)
  || ((0x2000 <=? c) && (c <=? 0x200A))
  || (c =? 0x2028) || (c =? 0x2029) || (c =? 0x202F) || (c =? 0x205F)
  || (c =? 0x3000).

(** Whitespace of [bytes.strip] (and of C's [Py_ISSPACE]):
    [b' \t\n\r\x0b\x0c']. *)
Definition isspace_ascii (b : N) : bool :=
  ((9 <=? b) && (b <=? 13)) || (b =? 32).

Fixpoint lstrip (ws : N -> bool) (s : list N) : list N :=
  match s with
  | [] => []
  | c :: s' => if ws c then lstrip ws s' else s
  end.

Definition rstrip (ws : N -> bool) (s : list N) : list N :=
  rev (lstrip ws (rev s)).

(** [s.strip()] for a [str] *)
Definition str_strip (s : str) : str := rstrip isspace (lstrip isspace s).

(** [b.strip()] for a [bytes] *)
Definition bytes_strip (b : bytes) : bytes :=
  rstrip isspace_ascii (lstrip isspace_ascii b).

(** Indexing a list of strings, [parts[i]]. *)
Definition py_index {A} (l : list A) (i : nat) : result A :=
  match nth_error l i with
  | Some a => Ret a
  | None => Raise IndexError
  end.

(** ** UTF-8 *)

Definition is_surrogate (c : N) : bool := (0xD800 <=? c) && (c <=? 0xDFFF).

Definition utf8_encode_char (c : N) : result bytes :=
  if c <? 0x80 then Ret [c]
  else if c <? 0x800 then Ret [0xC0 + c / 64; 0x80 + c mod 64]
  else if is_surrogate c then Raise UnicodeEncodeError
  else if c <? 0x10000 then
    Ret [0xE0 + c / 4096; 0x80 + (c / 64) mod 64; 0x80 + c mod 64]
  else if c <? 0x110000 then
    Ret [0xF0 + c / 262144; 0x80 + (c / 4096) mod 64;
         0x80 + (c / 64) mod 64; 0x80 + c mod 64]
  else Raise UnicodeEncodeError.

(** [s.encode('utf-8')]: strict, lone surrogates raise. *)
Fixpoint utf8_encode (s : str) : result bytes :=
  match s with
  | [] => Ret []
  | c :: s' =>
      match utf8_encode_char c with
      | Raise e => Raise e
      | Ret bs =>
          match utf8_encode s' with
          | Raise e => Raise e
          | Ret r => Ret (bs ++ r)
          end
      end
  end.

Definition is_cont (b : N) : bool := (0x80 <=? b) && (b <=? 0xBF).

Definition cons_ret (c : N) (r : result str) : result str :=
  match r with
  | Ret s => Ret (c :: s)
  | Raise e => Raise e
  end.

(** [b.decode('utf-8')]: strict; overlong forms, surrogates, values above
    U+10FFFF, stray or missing continuation bytes all raise. *)
Fixpoint utf8_decode (b : bytes) : result str :=
  match b with
  | [] => Ret []
  | b0 :: t0 =>
      if b0 <? 0x80 then cons_ret b0 (utf8_decode t0)
      else if (0xC2 <=? b0) && (b0 <=? 0xDF) then
        match t0 with
        | b1 :: t1 =>
            if is_cont b1
            then cons_ret ((b0 - 0xC0) * 64 + (b1 - 0x80)) (utf8_decode t1)
            else Raise UnicodeDecodeError
        | _ => Raise UnicodeDecodeError
        end
      else if (0xE0 <=? b0) && (b0 <=? 0xEF) then
        match t0 with
        | b1 :: b2 :: t2 =>
            let c := (b0 - 0xE0) * 4096 + (b1 - 0x80) * 64 + (b2 - 0x80) in
            if is_cont b1 && is_cont b2 && (0x800 <=? c)
               && negb (is_surrogate c)
            then cons_ret c (utf8_decode t2)
            else Raise UnicodeDecodeError
        | _ => Raise UnicodeDecodeError
        end
      else if (0xF0 <=? b0) && (b0 <=? 0xF4) then
        match t0 with
        | b1 :: b2 :: b3 :: t3 =>
            let c := (b0 - 0xF0) * 262144 + (b1 - 0x80) * 4096
                     + (b2 - 0x80) * 64 + (b3 - 0x80) in
            if is_cont b1 && is_cont b2 && is_cont b3
               && (0x10000 <=? c) && (c <? 0x110000)
            then cons_ret c (utf8_decode t3)
            else Raise UnicodeDecodeError
        | _ => Raise UnicodeDecodeError
        end
      else Raise UnicodeDecodeError
  end.

(** ** [float(s)] for a [str]

    CPython first maps the string to ASCII (non-ASCII white space becomes
    a blank, a non-ASCII decimal digit its ASCII digit, anything else
    ['?']), strips the six ASCII white-space characters, checks that every
    underscore stands between two digits and drops them, and hands the
    rest to [strtod], which must consume it entirely.  The value is the
    binary64 number nearest to the decimal literal, ties to even. *)

(** First code point of each run of ten decimal digits (Unicode 14). *)
Definition decimal_bases : list N :=
  [0x30; 0x660; 0x6F0; 0x7C0; 0x966; 0x9E6; 0xA66; 0xAE6; 0xB66; 0xBE6;
   0xC66; 0xCE6; 0xD66; 0xDE6; 0xE50; 0xED0; 0xF20; 0x1040; 0x1090;
   0x17E0; 0x1810; 0x1946; 0x19D0; 0x1A80; 0x1A90; 0x1B50; 0x1BB0;
   0x1C40; 0x1C50; 0xA620; 0xA8D0; 0xA900; 0xA9D0; 0xA9F0; 0xAA50;
   0xABF0; 0xFF10; 0x104A0; 0x10D30; 0x11066; 0x110F0; 0x11136; 0x111D0;
   0x112F0; 0x11450; 0x114D0; 0x11650; 0x116C0; 0x11730; 0x118E0;
   0x11950; 0x11C50; 0x11D50; 0x11DA0; 0x16A60; 0x16AC0; 0x16B50;
   0x1D7CE; 0x1D7D8; 0x1D7E2; 0x1D7EC; 0x1D7F6; 0x1E140; 0x1E2F0;
   0x1E950; 0x1FBF0].

Definition todecimal (c : N) : option N :=
  match find (fun b => (b <=? c) && (c <? b + 10)) decimal_bases with
  | Some b => Some (c - b)
  | None => None
  end.

Definition to_ascii_char (c : N) : N :=
  if c <? 127 then c
  else if isspace c then 32
  else match todecimal c with
       | Some d => 48 + d
       | None => 63
       end.

Definition transform_decimal_and_space (s : str) : list N :=
  if forallb (fun c => c <? 128) s then s else map to_ascii_char s.

Definition is_digit (c : N) : bool := (48 <=? c) && (c <=? 57).

(** Underscores are allowed only between two digits; [prev] is the
    character just read (NUL at the start). *)
Fixpoint drop_underscores (prev : N) (s : list N) : option (list N) :=
  match s with
  | [] => if prev =? 95 then None else Some []
  | c :: s' =>
      if c =? 95 then
        if is_digit prev then drop_underscores c s' else None
      else if (prev =? 95) && negb (is_digit c) then None
      else option_map (cons c) (drop_underscores c s')
  end.

Fixpoint span_digits (s : list N) : list N * list N :=
  match s with
  | [] => ([], [])
  | c :: s' =>
      if is_digit c
      then let (ds, rest) := span_digits s' in (c :: ds, rest)
      else ([], s)
  end.

Definition digits_value (ds : list N) : N :=
  fold_left (fun acc d => 10 * acc + (d - 48)) ds 0.

Definition take_sign (s : list N) : bool * list N :=
  match s with
  | 43 :: r => (false, r)
  | 45 :: r => (true, r)
  | _ => (false, s)
  end.

Definition lower (c : N) : N :=
  if (65 <=? c) && (c <=? 90) then c + 32 else c.

Definition list_eqb (a b : list N) : bool :=
  (length a =? length b)%nat && starts_with a b.

(** The exponent part: nothing, or [e]/[E], an optional sign and at least
    one digit, up to the end of the string. *)
Definition parse_exponent (s : list N) : option Z :=
  match s with
  | [] => Some 0%Z
  | c :: r =>
      if (c =? 101) || (c =? 69) then
        let (neg, r') := take_sign r in
        match span_digits r' with
        | (d :: ds, []) =>
            let v := Z.of_N (digits_value (d :: ds)) in
            Some (if neg then (- v)%Z else v)
        | _ => None
        end
      else None
  end.

Definition prec : Z := 53.
Definition emax : Z := 1024.

(** The binary64 value nearest to [m * 10 ^ e10]. *)
Definition round_decimal (neg : bool) (m : N) (e10 : Z) : spec_float :=
  match m with
  | N0 => S754_zero neg
  | Npos p =>
      match e10 with
      | Z0 => binary_round prec emax neg p 0
      | Zpos k => binary_round prec emax neg (p * 10 ^ k) 0
      | Zneg k =>
          let '(q, e, l) :=
            SFdiv_core_binary prec emax (Zpos p) 0 (Zpos (10 ^ k)) 0 in
          binary_round_aux prec emax neg q e l
      end
  end.

Definition parse_float_literal (s : list N) : option spec_float :=
  let (neg, body) := take_sign s in
  let low := map lower body in
  if list_eqb low [105; 110; 102]
     || list_eqb low [105; 110; 102; 105; 110; 105; 116; 121]
  then Some (S754_infinity neg)
  else if list_eqb low [110; 97; 110] then Some S754_nan
  else
    let (ip, r1) := span_digits body in
    let (fp, r2) :=
      match r1 with
      | 46 :: r1' => span_digits r1'
      | _ => ([], r1)
      end in
    match ip ++ fp with
    | [] => None
    | ds =>
        match parse_exponent r2 with
        | None => None
        | Some e =>
            Some (round_decimal neg (digits_value ds)
                                (e - Z.of_nat (length fp)))
        end
    end.

Definition py_float (s : str) : result spec_float :=
  let a := transform_decimal_and_space s in
  let t := rstrip isspace_ascii (lstrip isspace_ascii a) in
  match drop_underscores 0 t with
  | None => Raise ValueError
  | Some u =>
      match parse_float_literal u with
      | Some f => Ret f
      | None => Raise ValueError
      end
  end.

(** ** The child process as [pexpect.spawn] presents it

    Only what [TweetTagger] touches is kept: the chunks written to the
    child, the output received and not yet consumed by an [expect], the
    [before] attribute and the signals passed to [kill]. *)

Record spawn : Type := {
  sent : list bytes;
  buffer : bytes;
  before : bytes;
  killed : list N
}.

(** What the child and the operating system do during one call of
    [batch]: whether the write on the pseudo-terminal fails, the bytes
    the child prints before the wait of [expect] is over, and the
    exception that ends this wait when the pattern has not shown up
    ([TIMEOUT] after the bound, [EOF] when the child has gone). *)
Record reaction : Type := {
  write_error : option exn;
  output : bytes;
  stream_end : exn
}.

(** [spawn.write(data)]: one [os.write] on the pseudo-terminal, taken to
    pass all of [data] or to fail. *)
Definition spawn_write (data : bytes) (w : reaction) (pr : spawn)
  : result N * spawn :=
  match write_error w with
  | Some e => (Raise e, pr)
  | None =>
      (Ret (N.of_nat (length data)),
       {| sent := sent pr ++ [data]; buffer := buffer pr;
          before := before pr; killed := killed pr |})
  end.

(** [spawn.expect(pat, timeout=...)] for a literal pattern: the match
    is the first occurrence in the stream; [before] receives what
    precedes it and the rest stays buffered.  Without a match the
    exception of the reaction is raised and [before] receives all that
    was read; the buffer is dropped at end of file. *)
Definition spawn_expect (pat : bytes) (w : reaction) (pr : spawn)
  : result N * spawn :=
  let stream := buffer pr ++ output w in
  match search pat stream with
  | Some (pre, post) =>
      (Ret 0,
       {| sent := sent pr; buffer := post; before := pre;
          killed := killed pr |})
  | None =>
      (Raise (stream_end w),
       {| sent := sent pr;
          buffer := match stream_end w with EOF => [] | _ => stream end;
          before := stream; killed := killed pr |})
  end.

(** [spawn.kill(sig)]: the request to deliver [sig] to the child, which
    pexpect passes on when the child is still alive. *)
Definition spawn_kill (sig : N) (pr : spawn) : spawn :=
  {| sent := sent pr; buffer := buffer pr; before := before pr;
     killed := killed pr ++ [sig] |}.

(** ** The interpreter state and its monad *)

Record TweetTagger : Type := {
  cmd : str;
  proc : spawn
}.

Record interp : Type := {
  self : TweetTagger;
  console : list str
}.

Definition M (A : Type) : Type := interp -> result A * interp.

Definition ret {A} (a : A) : M A := fun st => (Ret a, st).

Definition bind {A B} (m : M A) (k : A -> M B) : M B :=
  fun st =>
    match m st with
    | (Ret a, st') => k a st'
    | (Raise e, st') => (Raise e, st')
    end.

Declare Scope py_scope.
Delimit Scope py_scope with py.
Notation "x <- m ;; k" := (bind m (fun x => k))
  (at level 61, m at next level, right associativity) : py_scope.

(** A pure computation that may raise. *)
Definition lift {A} (r : result A) : M A := fun st => (r, st).

(** The protected part of a [try] statement: the outcome is handed to
    the code that follows. *)
Definition try_ {A} (m : M A) : M (result A) :=
  fun st => let (r, st') := m st in (Ret r, st').

(** A method call on [self.proc]. *)
Definition on_proc {A} (f : spawn -> result A * spawn) : M A :=
  fun st =>
    let (r, pr) := f (proc (self st)) in
    (r, {| self := {| cmd := cmd (self st); proc := pr |};
           console := console st |}).

(** The attribute [self.proc.before]. *)
Definition proc_before : M bytes :=
  fun st => (Ret (before (proc (self st))), st).

Definition print (line : str) : M unit :=
  fun st => (Ret tt, {| self := self st; console := console st ++ [line] |}).

(** [def p( msg ): print( printhead + msg )] *)
Definition p (msg : str) : M unit := print (printhead ++ msg).

(** ** [class TweetTagger] *)

(** One yielded tuple: [(tokens, tags, confidence)]. *)
Definition record : Type := str * str * spec_float.

Local Open Scope result_scope.

(** The loop of [_parse_raw_result] over the rows, collected in a list. *)
Fixpoint parse_rows (rows : list str) : result (list record) :=
  match rows with
  | [] => Ret []
  | line :: rest =>
      let line := str_strip line in
      if (0 <? length line)%nat then
        if (str_count [TAB] line =? 2)%nat then
          parts <~ str_split [TAB] line ;;
          tokens <~ py_index parts 0 ;;
          tags <~ py_index parts 1 ;;
          field <~ py_index parts 2 ;;
          confidence <~ py_float field ;;
          more <~ parse_rows rest ;;
          Ret ((tokens, tags, confidence) :: more)
        else parse_rows rest
      else parse_rows rest
  end.

(** [list(self._parse_raw_result(raw_result))] *)
Definition _parse_raw_result (raw_result : str) : result (list record) :=
  rows <~ str_split CRLF raw_result ;;
  parse_rows rows.

Local Open Scope py_scope.

(** [tw.replace('\n', ' ').replace('\r', ' ')] *)
Definition clean_tweet (tw : str) : str :=
  str_replace [CR] [SP] (str_replace [LF] [SP] tw).

Definition batch (tweets : list str) (w : reaction)
  : M (list (list record)) :=
  let tweets_cleaned := map clean_tweet tweets in
  let message := str_join [LF] tweets_cleaned in
  data <- lift (utf8_encode (message ++ [LF; LF])) ;;
  _ <- on_proc (spawn_write data w) ;;
  waited <- try_ (on_proc (spawn_expect marker w)) ;;
  match waited with
  | Raise _ =>
      _ <- p msg_exception ;;
      ret []
  | Ret _ =>
      out <- proc_before ;;
      raw <- lift (utf8_decode (bytes_strip out)) ;;
      pieces <- lift (str_split banner raw) ;;
      let raw := str_strip (str_join [] pieces) in
      raw_results <- lift (str_split CRLFCRLF raw) ;;
      lift (rmap _parse_raw_result raw_results)
  end.

(** [def kill( self ): self.proc.kill( 1 )] *)
Definition kill : M unit :=
  on_proc (fun pr => (Ret tt, spawn_kill 1 pr)).

Definition __enter__ : M TweetTagger := fun st => (Ret (self st), st).

(** [__exit__] returns [None], which is false: the exception, if any, is
    not suppressed. *)
Definition __exit__ (exc : option exn) : M bool :=
  _ <- kill ;;
  ret false.

(** [with mgr as x: body], as the language reference unfolds it.  The
    value is [None] when [__exit__] suppressed an exception. *)
Definition with_ {A} (body : TweetTagger -> M A) : M (option A) :=
  fun st =>
    match __enter__ st with
    | (Raise e, st1) => (Raise e, st1)
    | (Ret x, st1) =>
        match body x st1 with
        | (Raise e, st2) =>
            match __exit__ (Some e) st2 with
            | (Raise e', st3) => (Raise e', st3)
            | (Ret true, st3) => (Ret None, st3)
            | (Ret false, st3) => (Raise e, st3)
            end
        | (Ret a, st2) =>
            match __exit__ None st2 with
            | (Raise e', st3) => (Raise e', st3)
            | (Ret _, st3) => (Ret (Some a), st3)
            end
        end
    end.

(** ** Vocabulary of the statements *)

(** An ASCII literal as a [str] (or as [bytes]). *)
Definition lit (s : string) : list N :=
  map N_of_ascii (list_ascii_of_string s).

(** A session right after start-up: nothing written, nothing pending. *)
Definition fresh : interp :=
  {| self :=
       {| cmd := lit "java -XX:ParallelGCThreads=2 -Xmx500m -jar ark-tweet-nlp-0.3.2/ark-tweet-nlp-0.3.2.jar --output-format conll"%string;
          proc := {| sent := []; buffer := []; before := []; killed := [] |} |};
     console := [] |}.

(** What cleaning does to one character. *)
Definition cr_lf_to_space (c : N) : N :=
  if (c =? LF) || (c =? CR) then SP else c.

(** A trimmed row has the shape of a record when it is not empty and
    holds exactly two tabs. *)
Definition shaped (l : str) : bool :=
  (0 <? length l)%nat && (str_count [TAB] l =? 2)%nat.

(** The trimmed rows of a block that have the shape of a record. *)
Definition shaped_rows (block : str) : list str :=
  filter shaped (map str_strip (split_go CRLF 0 [] block)).

(** The record made from a trimmed, shaped row. *)
Definition row_record (l : str) : result record :=
  (parts <~ str_split [TAB] l ;;
   tokens <~ py_index parts 0 ;;
   tags <~ py_index parts 1 ;;
   field <~ py_index parts 2 ;;
   confidence <~ py_float field ;;
   Ret (tokens, tags, confidence))%result.

(** The bytes [batch] hands to [write] for a list of tweets. *)
Definition request_of (tweets : list str) : result bytes :=
  utf8_encode (str_join [LF] (map clean_tweet tweets) ++ [LF; LF]).

(** The stream [expect] looks at during a call of [batch]. *)
Definition stream_of (w : reaction) (st : interp) : bytes :=
  buffer (proc (self st)) ++ output w.

(** The text [batch] splits into blocks, from the bytes before the
    marker (lines 115 to 117). *)
Definition cleaned_response (out : bytes) : result str :=
  (raw <~ utf8_decode (bytes_strip out) ;;
   pieces <~ str_split banner raw ;;
   Ret (str_strip (str_join [] pieces)))%result.

Definition response_blocks (out : bytes) : result (list str) :=
  (raw <~ cleaned_response out ;;
   str_split CRLFCRLF raw)%result.

(** [pat] occurs nowhere in [s]. *)
Definition absent (pat s : list N) : Prop := search pat s = None.

(** No occurrence of [sep] in [x ++ tail] starts inside [x]. *)
Fixpoint clean_before (sep x tail : list N) : bool :=
  match x with
  | [] => true
  | _ :: x' => negb (starts_with sep (x ++ tail)) && clean_before sep x' tail
  end.

(** The first, respectively the last, character of [s] exists and
    satisfies [P]. *)
Definition starts_ok (P : N -> Prop) (s : list N) : Prop :=
  match s with
  | [] => False
  | c :: _ => P c
  end.

Definition ends_ok (P : N -> Prop) (s : list N) : Prop :=
  starts_ok P (rev s).

(** *** The response of the engine, as the protocol describes it

    One row per token, [tokens<TAB>tags<TAB>confidence]; the rows of a
    text joined by [\r\n] form its block; the blocks are joined by
    [\r\n\r\n]. *)

(** A code point that UTF-8 can encode. *)
Definition valid (c : N) : Prop :=
  is_surrogate c = false /\ c < 0x110000.

(** A character of a field: encodable and not white space, hence
    neither a tab, nor a carriage return, nor a line feed. *)
Definition plain (c : N) : Prop :=
  isspace c = false /\ valid c.

Record wire_row : Type := {
  row_tokens : str;
  row_tags : str;
  row_confidence : str
}.

Definition row_text (r : wire_row) : str :=
  row_tokens r ++ [TAB] ++ row_tags r ++ [TAB] ++ row_confidence r.

Definition block_text (b : list wire_row) : str :=
  str_join CRLF (map row_text b).

Definition response_text (blocks : list (list wire_row)) : str :=
  str_join CRLFCRLF (map block_text blocks).

Definition row_ok (r : wire_row) : Prop :=
  row_tokens r <> [] /\ Forall plain (row_tokens r)
  /\ Forall plain (row_tags r)
  /\ row_confidence r <> [] /\ Forall plain (row_confidence r).

(** The block of a text that is not empty: at least one row. *)
Definition rows_ok (b : list wire_row) : Prop := b <> [] /\ Forall row_ok b.

(** The record a row stands for. *)
Definition row_value (r : wire_row) : result record :=
  (f <~ py_float (row_confidence r) ;;
   Ret (row_tokens r, row_tags r, f))%result.

(** The octets of one code point, none if it cannot be encoded. *)
Definition enc1 (c : N) : bytes :=
  match utf8_encode_char c with
  | Ret bs => bs
  | Raise _ => []
  end.

Definition utf8 (s : str) : bytes := flat_map enc1 s.

(** [bs] is the well-formed UTF-8 sequence of the code point [c]: the
    decoder reads it in one step; it is [c] itself below 128, and made of
    octets from 128 up otherwise. *)
Definition unit_of (bs : bytes) (c : N) : Prop :=
  (forall rest, utf8_decode (bs ++ rest) = cons_ret c (utf8_decode rest))
  /\ ((bs = [c] /\ c < 0x80)
      \/ (0x80 <= c /\ bs <> [] /\ Forall (fun b => 0x80 <= b) bs)).

(** A row, of characters or of octets, that is not empty and holds no
    carriage return. *)
Definition solid (r : list N) : Prop := r <> [] /\ ~ In CR r.

(** ** Start-up: [__init__] *)

(** The pattern [__init__] waits for, as the source writes it. *)
Definition readiness_pattern : str :=
  lit "Listening on stdin for input\.  \(\-h for help\)".

Definition is_alnum (c : N) : bool :=
  ((48 <=? c) && (c <=? 57)) || ((65 <=? c) && (c <=? 90))
  || ((97 <=? c) && (c <=? 122)).

(** The characters with a meaning of their own in a regular
    expression: [. ^ $ * + ? { } [ ] \ | ( )]. *)
Definition is_regex_special (c : N) : bool :=
  existsb (N.eqb c) [46; 94; 36; 42; 43; 63; 123; 125; 91; 93; 92; 124; 40; 41].

(** The one text a pattern matches when it uses no operator: a backslash
    before a character that is neither letter nor digit stands for this
    character, any other character for itself.  [None] for the patterns
    outside this fragment. *)
Fixpoint regex_text (pat : list N) : option (list N) :=
  match pat with
  | [] => Some []
  | c :: r =>
      if c =? 92 then
        match r with
        | [] => None
        | d :: r' =>
            if is_alnum d then None else option_map (cons d) (regex_text r')
        end
      else if is_regex_special c then None
      else option_map (cons c) (regex_text r)
  end.

(** The text [readiness_pattern] matches. *)
Definition readiness : bytes :=
  lit "Listening on stdin for input.  (-h for help)".

Definition default_java_opts : str := lit "-XX:ParallelGCThreads=2 -Xmx500m".
Definition default_jarpath : str :=
  lit "ark-tweet-nlp-0.3.2/ark-tweet-nlp-0.3.2.jar".

(** The object [pexpect.spawn] returns for a child just started. *)
Definition spawned : spawn :=
  {| sent := []; buffer := []; before := []; killed := [] |}.

(** [__init__]: build the command, start the child, wait for the
    readiness text.  [launch] is the exception [pexpect.spawn] raises when
    the command cannot be started, if any; [w] is what the child prints
    while [expect] waits.  No handler surrounds the wait. *)
Definition __init__ (java_opts jarpath : str) (launch : option exn)
           (w : reaction) : M N :=
  fun st =>
    let command :=
      str_join [SP] [lit "java"; java_opts; lit "-jar"; jarpath;
                     lit "--output-format"; lit "conll"] in
    match launch with
    | Some e =>
        (Raise e,
         {| self := {| cmd := command; proc := proc (self st) |};
            console := console st |})
    | None =>
        on_proc (spawn_expect readiness w)
          {| self := {| cmd := command; proc := spawned |};
             console := console st |}
    end.

(** ** More vocabulary *)

(** A text of white space only. *)
Definition blank (s : str) : Prop := Forall (fun c => isspace c = true) s.

(** What may precede the response in the stream without harm: the end of
    the readiness line, a banner line, or both. *)
Definition harmless_prefixes : list bytes :=
  [[]; CRLF; banner ++ CRLF; CRLF ++ banner ++ CRLF].

(** *** A response with lines of any kind

    A line as the engine may print it, record or not: it begins and ends
    with a character that is not white space, every character can be
    encoded, and there is no carriage return inside.  Tabs, blanks and
    other white space may occur inside. *)
Definition line_ok (l : str) : Prop :=
  starts_ok plain l /\ ends_ok plain l /\ Forall valid l /\ ~ In CR l.

(** A block with at least one line. *)
Definition lines_ok (b : list str) : Prop := b <> [] /\ Forall line_ok b.

(** The text of a response given by the lines of its blocks. *)
Definition lines_text (blocks : list (list str)) : str :=
  str_join CRLFCRLF (map (str_join CRLF) blocks).

(** The third tab-separated field of a line, empty when there is none. *)
Definition third_field (l : str) : str :=
  nth 2 (split_go [TAB] 0 [] l) [].

(** ** Basic facts on searching, splitting and joining *)

Lemma starts_with_true_app :
  forall pre s, starts_with pre s = true -> exists r, s = pre ++ r.
Proof.
  induction pre as [|x pre IH]; intros s H.
  - exists s. reflexivity.
  - destruct s as [|c s]; simpl in H; [discriminate|].
    apply andb_true_iff in H. destruct H as [Hx Hs].
    apply N.eqb_eq in Hx. subst c.
    destruct (IH _ Hs) as [r ->]. exists r. reflexivity.
Qed.

Lemma starts_with_app_self :
  forall pre r, starts_with pre (pre ++ r) = true.
Proof.
  induction pre as [|x pre IH]; intros r; simpl.
  - reflexivity.
  - rewrite N.eqb_refl. apply IH.
Qed.

Lemma split_go_skip :
  forall sep q cur r,
    split_go sep (length q) cur (q ++ r) = split_go sep 0 cur r.
Proof.
  induction q as [|c q IH]; intros cur r; simpl.
  - reflexivity.
  - apply IH.
Qed.

Lemma split_go_not_nil :
  forall sep s k cur, split_go sep k cur s <> [].
Proof.
  induction s as [|c s IH]; intros k cur; simpl.
  - discriminate.
  - destruct k as [|k]; [|apply IH].
    destruct (starts_with sep (c :: s)); [discriminate|apply IH].
Qed.

Lemma str_join_cons :
  forall sep x l, l <> [] -> str_join sep (x :: l) = x ++ sep ++ str_join sep l.
Proof.
  intros sep x l H. destruct l as [|y l]; [contradiction|reflexivity].
Qed.

Lemma split_go_length :
  forall sep s k cur,
    length (split_go sep k cur s) = S (count_go sep k s).
Proof.
  induction s as [|c s IH]; intros k cur; simpl.
  - reflexivity.
  - destruct k as [|k]; [|apply IH].
    destruct (starts_with sep (c :: s)); simpl; rewrite IH; reflexivity.
Qed.

(** Replacing one character by another is a [map]. *)
Lemma join_split_char :
  forall a b s cur,
    str_join [b] (split_go [a] 0 cur s)
    = rev cur ++ map (fun c => if c =? a then b else c) s.
Proof.
  intros a b. induction s as [|c s IH]; intros cur.
  - simpl. rewrite app_nil_r. reflexivity.
  - cbn [split_go starts_with length pred map].
    rewrite andb_true_r, (N.eqb_sym a c).
    destruct (c =? a).
    + rewrite str_join_cons by apply split_go_not_nil.
      rewrite IH. reflexivity.
    + rewrite IH. simpl. rewrite <- app_assoc. reflexivity.
Qed.

Lemma str_replace_char :
  forall a b s,
    str_replace [a] [b] s = map (fun c => if c =? a then b else c) s.
Proof.
  intros a b s. unfold str_replace. apply (join_split_char a b s []).
Qed.

Lemma clean_tweet_map :
  forall tw, clean_tweet tw = map cr_lf_to_space tw.
Proof.
  intros tw. unfold clean_tweet. rewrite !str_replace_char, map_map.
  apply map_ext. intros c. unfold cr_lf_to_space.
  destruct (c =? LF) eqn:E; simpl.
  - reflexivity.
  - reflexivity.
Qed.

(** ** Running [batch] *)

Ltac run_batch :=
  unfold batch, bind, lift, try_, on_proc, proc_before, p, print, ret,
    spawn_write, spawn_expect; simpl.

Lemma batch_encode_error :
  forall tweets w st e,
    request_of tweets = Raise e ->
    batch tweets w st = (Raise e, st).
Proof.
  intros tweets w st e H. unfold request_of in H. run_batch.
  rewrite H. reflexivity.
Qed.

Lemma batch_write_error :
  forall tweets w st data e,
    request_of tweets = Ret data ->
    write_error w = Some e ->
    fst (batch tweets w st) = Raise e
    /\ sent (proc (self (snd (batch tweets w st)))) = sent (proc (self st)).
Proof.
  intros tweets w st data e H Hw. unfold request_of in H. run_batch.
  rewrite H, Hw. simpl. split; reflexivity.
Qed.

Lemma batch_sent :
  forall tweets w st data,
    request_of tweets = Ret data ->
    write_error w = None ->
    sent (proc (self (snd (batch tweets w st))))
    = sent (proc (self st)) ++ [data].
Proof.
  intros tweets w st data H Hw. unfold request_of in H. run_batch.
  rewrite H, Hw. simpl.
  destruct (search marker (buffer (proc (self st)) ++ output w))
    as [[pre post]|]; simpl.
  - destruct (utf8_decode (bytes_strip pre)); reflexivity.
  - reflexivity.
Qed.

Lemma batch_no_marker :
  forall tweets w st data,
    request_of tweets = Ret data ->
    write_error w = None ->
    search marker (stream_of w st) = None ->
    fst (batch tweets w st) = Ret []
    /\ console (snd (batch tweets w st))
       = console st ++ [printhead ++ msg_exception].
Proof.
  intros tweets w st data H Hw Hs. unfold request_of in H.
  unfold stream_of in Hs. run_batch.
  rewrite H, Hw. simpl. rewrite Hs. simpl. split; reflexivity.
Qed.

Lemma batch_marker :
  forall tweets w st data pre post,
    request_of tweets = Ret data ->
    write_error w = None ->
    search marker (stream_of w st) = Some (pre, post) ->
    fst (batch tweets w st)
    = (blocks <~ response_blocks pre ;; rmap _parse_raw_result blocks)%result
    /\ before (proc (self (snd (batch tweets w st)))) = pre
    /\ console (snd (batch tweets w st)) = console st.
Proof.
  intros tweets w st data pre post H Hw Hs. unfold request_of in H.
  unfold stream_of in Hs. run_batch.
  rewrite H, Hw. simpl. rewrite Hs. simpl.
  unfold response_blocks, cleaned_response, rbind. simpl.
  destruct (utf8_decode (bytes_strip pre)); simpl; auto.
Qed.

(** A value returned by [batch] comes from one of the two ways out:
    the handler of the wait, or the parsed response. *)
Lemma batch_ret_inv :
  forall tweets w st rs,
    fst (batch tweets w st) = Ret rs ->
    exists data,
      request_of tweets = Ret data /\ write_error w = None /\
      ((search marker (stream_of w st) = None /\ rs = [])
       \/ exists pre post blocks,
            search marker (stream_of w st) = Some (pre, post)
            /\ response_blocks pre = Ret blocks
            /\ rmap _parse_raw_result blocks = Ret rs).
Proof.
  intros tweets w st rs H.
  destruct (request_of tweets) as [data|e] eqn:He.
  2:{ rewrite (batch_encode_error tweets w st e He) in H. discriminate. }
  destruct (write_error w) as [e|] eqn:Hw.
  { destruct (batch_write_error tweets w st data e He Hw) as [H1 _].
    rewrite H1 in H. discriminate. }
  exists data. split; [reflexivity|]. split; [reflexivity|].
  destruct (search marker (stream_of w st)) as [[pre post]|] eqn:Hs.
  - right. destruct (batch_marker tweets w st data pre post He Hw Hs) as [H1 _].
    rewrite H1 in H.
    destruct (response_blocks pre) as [blocks|e] eqn:Hb; simpl in H.
    + exists pre, post, blocks. auto.
    + discriminate.
  - left. destruct (batch_no_marker tweets w st data He Hw Hs) as [H1 _].
    rewrite H1 in H. inversion H. auto.
Qed.

Lemma rmap_length :
  forall A B (f : A -> result B) l rs,
    rmap f l = Ret rs -> length rs = length l.
Proof.
  induction l as [|a l IH]; intros rs H; simpl in H.
  - inversion H. reflexivity.
  - destruct (f a); [|discriminate].
    destruct (rmap f l); [|discriminate].
    inversion H. simpl. f_equal. apply IH. reflexivity.
Qed.

Lemma response_blocks_not_nil :
  forall out blocks, response_blocks out = Ret blocks -> blocks <> [].
Proof.
  intros out blocks H. unfold response_blocks in H.
  destruct (cleaned_response out) as [raw|]; simpl in H; [|discriminate].
  inversion H. apply split_go_not_nil.
Qed.

(** ** UTF-8 encoding distributes over concatenation *)

Lemma utf8_encode_app :
  forall a b x y,
    utf8_encode a = Ret x -> utf8_encode b = Ret y ->
    utf8_encode (a ++ b) = Ret (x ++ y).
Proof.
  induction a as [|c a IH]; intros b x y Ha Hb; simpl in *.
  - inversion Ha. exact Hb.
  - destruct (utf8_encode_char c) as [bs|]; [|discriminate].
    destruct (utf8_encode a) as [r|]; [|discriminate].
    inversion Ha. rewrite (IH b r y eq_refl Hb), app_assoc. reflexivity.
Qed.

Lemma utf8_encode_app_inv :
  forall a b d,
    utf8_encode (a ++ b) = Ret d ->
    exists x y, utf8_encode a = Ret x /\ utf8_encode b = Ret y /\ d = x ++ y.
Proof.
  induction a as [|c a IH]; intros b d H; simpl in *.
  - exists [], d. auto.
  - destruct (utf8_encode_char c) as [bs|]; [|discriminate].
    destruct (utf8_encode (a ++ b)) as [r|] eqn:E; [|discriminate].
    destruct (IH b r E) as (x & y & Hx & Hy & ->).
    rewrite Hx. inversion H. exists (bs ++ x), y.
    rewrite app_assoc. auto.
Qed.

Lemma utf8_encode_join :
  forall sep es l d,
    utf8_encode sep = Ret es ->
    utf8_encode (str_join sep l) = Ret d ->
    exists encs,
      Forall2 (fun t e => utf8_encode t = Ret e) l encs
      /\ d = str_join es encs.
Proof.
  intros sep es. induction l as [|t l IH]; intros d Hsep H.
  - simpl in H. inversion H. exists []. split; constructor.
  - destruct l as [|u l].
    + simpl in H. exists [d]. split; [|reflexivity].
      constructor; [exact H|constructor].
    + rewrite str_join_cons in H by discriminate.
      apply utf8_encode_app_inv in H. destruct H as (x & y & Hx & Hy & ->).
      apply utf8_encode_app_inv in Hy. destruct Hy as (s' & r & Hs & Hr & ->).
      rewrite Hsep in Hs. inversion Hs. subst s'.
      destruct (IH r Hsep Hr) as (encs & HF & ->).
      exists (x :: encs). split; [constructor; assumption|].
      rewrite str_join_cons; [reflexivity|].
      inversion HF. discriminate.
Qed.

(** ** The claims on the request *)

(** C3. Every carriage return and every line feed of an input text is a
    blank in what is transmitted, the other characters are untouched:
    the chunk written to the child is the encoding of the texts mapped
    through [cr_lf_to_space], joined by line feeds and closed by two line
    feeds.  The instance that follows sends ["a\nb"] and finds ["a b"]
    on the wire. *)
Theorem cr_lf_replaced_before_transmission :
  forall tweets w st data,
    utf8_encode (str_join [LF] (map (map cr_lf_to_space) tweets) ++ [LF; LF])
    = Ret data ->
    write_error w = None ->
    map clean_tweet tweets = map (map cr_lf_to_space) tweets
    /\ sent (proc (self (snd (batch tweets w st))))
       = sent (proc (self st)) ++ [data].
Proof.
  intros tweets w st data H Hw.
  assert (E : map clean_tweet tweets = map (map cr_lf_to_space) tweets).
  { apply map_ext. apply clean_tweet_map. }
  split; [exact E|].
  apply batch_sent; [|exact Hw].
  unfold request_of. rewrite E. exact H.
Qed.

Lemma cr_lf_replaced_before_transmission_witness :
  let tweets := [lit "a" ++ [LF] ++ lit "b"] in
  let w := {| write_error := None; output := []; stream_end := TIMEOUT |} in
  map clean_tweet tweets = [lit "a b"]
  /\ sent (proc (self (snd (batch tweets w fresh))))
     = [lit "a b" ++ [LF; LF]].
Proof.
  intros tweets w.
  apply (@cr_lf_replaced_before_transmission tweets w fresh
           (lit "a b" ++ [LF; LF])); reflexivity.
Defined.

(** C4. The chunk written to the child is the UTF-8 encoding of the
    cleaned texts joined by one line feed and followed by two line feeds;
    byte for byte, it is the encodings of the cleaned texts, separated by
    the octet 10 and followed by two octets 10. *)
Theorem request_framing :
  forall tweets w st data,
    utf8_encode (str_join [LF] (map clean_tweet tweets) ++ [LF; LF])
    = Ret data ->
    write_error w = None ->
    sent (proc (self (snd (batch tweets w st))))
    = sent (proc (self st)) ++ [data]
    /\ exists encs,
         Forall2 (fun tw e => utf8_encode (clean_tweet tw) = Ret e)
                 tweets encs
         /\ data = str_join [LF] encs ++ [LF; LF].
Proof.
  intros tweets w st data H Hw. split.
  - apply batch_sent; assumption.
  - apply utf8_encode_app_inv in H. destruct H as (x & y & Hx & Hy & ->).
    inversion Hy. subst y.
    destruct (@utf8_encode_join [LF] [LF] _ x eq_refl Hx) as (encs & HF & ->).
    exists encs. split; [|reflexivity].
    clear Hx. revert encs HF.
    induction tweets as [|tw tweets IH]; intros encs HF; inversion HF; subst.
    + constructor.
    + constructor; [assumption|]. apply IH. assumption.
Qed.

Lemma request_framing_witness :
  let tweets := [lit "this is a message"; [233; 10; 8364]] in
  let w := {| write_error := None; output := []; stream_end := TIMEOUT |} in
  let data := lit "this is a message" ++ [10] ++ [195; 169; 32; 226; 130; 172]
              ++ [10; 10] in
  sent (proc (self (snd (batch tweets w fresh)))) = [data]
  /\ exists encs,
       Forall2 (fun tw e => utf8_encode (clean_tweet tw) = Ret e) tweets encs
       /\ data = str_join [LF] encs ++ [LF; LF].
Proof.
  intros tweets w data.
  apply (@request_framing tweets w fresh data); reflexivity.
Defined.

(** ** The claims on the wait *)

(** C2. Once the request is on its way, a wait that ends without the
    marker, whatever exception ends it ([TIMEOUT], [EOF] or any other),
    makes [batch] return the empty list, whatever the number of texts;
    the exception is not propagated and one diagnostic line is printed. *)
Theorem no_marker_gives_empty_result :
  forall tweets w st data,
    utf8_encode (str_join [LF] (map clean_tweet tweets) ++ [LF; LF])
    = Ret data ->
    write_error w = None ->
    search marker (stream_of w st) = None ->
    fst (batch tweets w st) = Ret []
    /\ console (snd (batch tweets w st))
       = console st ++ [printhead ++ msg_exception].
Proof.
  intros tweets w st data H Hw Hs.
  apply (@batch_no_marker tweets w st data); assumption.
Qed.

Lemma no_marker_gives_empty_result_witness :
  let tweets := [lit "one"; lit "two"; lit "three"] in
  let w := {| write_error := None;
              output := lit "one" ++ [TAB] ++ lit "$" ++ [TAB] ++ lit "0.9"
                        ++ CRLFCRLF;
              stream_end := EOF |} in
  fst (batch tweets w fresh) = Ret []
  /\ console (snd (batch tweets w fresh))
     = [lit "[     Tagger      ] Exception while tagging tweets"].
Proof.
  intros tweets w.
  apply (@no_marker_gives_empty_result tweets w fresh
           (lit "one" ++ [LF] ++ lit "two" ++ [LF] ++ lit "three"
            ++ [LF; LF])); reflexivity.
Defined.

(** C10. When the marker is seen and [batch] returns, the list returned
    has at least one entry, because splitting always yields at least one
    block; so [batch] returns the empty list only from the handler of the
    wait. *)
Theorem empty_result_only_without_marker :
  forall tweets w st rs,
    fst (batch tweets w st) = Ret rs ->
    (search marker (stream_of w st) <> None -> (1 <= length rs)%nat)
    /\ (rs = [] -> search marker (stream_of w st) = None).
Proof.
  intros tweets w st rs H.
  destruct (batch_ret_inv tweets w st rs H) as (data & _ & _ & Hcase).
  destruct Hcase as [[Hs ->]|(pre & post & blocks & Hs & Hb & Hr)].
  - split; [intros Hn; contradiction|intros _; exact Hs].
  - assert (L : (1 <= length rs)%nat).
    { rewrite (rmap_length _ _ _ _ _ Hr).
      pose proof (response_blocks_not_nil _ _ Hb) as Hn.
      destruct blocks; [contradiction|simpl; lia]. }
    split; [intros _; exact L|].
    intros ->. simpl in L. lia.
Qed.

Lemma empty_result_only_without_marker_witness :
  let tweets := [lit "hello"] in
  let w := {| write_error := None; output := marker;
              stream_end := TIMEOUT |} in
  fst (batch tweets w fresh) = Ret [[]]
  /\ (search marker (stream_of w fresh) <> None -> (1 <= 1)%nat)
  /\ (@nil record :: nil = [] -> search marker (stream_of w fresh) = None).
Proof.
  intros tweets w.
  split; [reflexivity|].
  apply (@empty_result_only_without_marker tweets w fresh [[]]).
  reflexivity.
Defined.

(** ** The claim on the scope *)

(** C9. Leaving a [with] block calls [kill], hence [proc.kill(1)],
    whatever the body did: the state after the block is the state the
    body left with one more signal 1 recorded, and an exception raised by
    the body (by [batch], say) is raised again after the call. *)
Theorem exit_always_kills :
  forall (A : Type) (body : TweetTagger -> M A) st,
    let after := snd (body (self st) st) in
    killed (proc (self (snd (with_ body st))))
    = killed (proc (self after)) ++ [1]
    /\ sent (proc (self (snd (with_ body st)))) = sent (proc (self after))
    /\ console (snd (with_ body st)) = console after
    /\ fst (with_ body st)
       = match fst (body (self st) st) with
         | Ret a => Ret (Some a)
         | Raise e => Raise e
         end.
Proof.
  intros A body st after. unfold after, with_, __enter__.
  destruct (body (self st) st) as [[a|e] st2]; simpl; auto.
Qed.

(** A [batch] that raises inside the block: the text holds a lone
    surrogate, encoding fails, the signal is sent all the same. *)
Example exit_kills_after_failed_batch :
  let w := {| write_error := None; output := marker;
              stream_end := TIMEOUT |} in
  with_ (fun tw => batch [[0xD800]] w) fresh
  = (Raise UnicodeEncodeError,
     {| self :=
          {| cmd := cmd (self fresh);
             proc := {| sent := []; buffer := []; before := [];
                        killed := [1] |} |};
        console := [] |}).
Proof. reflexivity. Qed.

(** ** The parser of one block *)

Lemma rmap_app :
  forall A B (f : A -> result B) l1 l2,
    rmap f (l1 ++ l2)
    = (x <~ rmap f l1 ;; y <~ rmap f l2 ;; Ret (x ++ y))%result.
Proof.
  induction l1 as [|a l1 IH]; intros l2; simpl.
  - destruct (rmap f l2); reflexivity.
  - destruct (f a); [|reflexivity].
    rewrite IH. destruct (rmap f l1); simpl; [|reflexivity].
    destruct (rmap f l2); reflexivity.
Qed.

Lemma rmap_nth :
  forall A B (f : A -> result B) l rs i a,
    rmap f l = Ret rs -> nth_error l i = Some a ->
    exists b, nth_error rs i = Some b /\ f a = Ret b.
Proof.
  induction l as [|x l IH]; intros rs i a H Hi.
  - destruct i; discriminate.
  - simpl in H. destruct (f x) as [b|] eqn:Fx; [|discriminate].
    destruct (rmap f l) as [bs|] eqn:Fl; [|discriminate].
    inversion H. subst rs. destruct i as [|i]; simpl in *.
    + inversion Hi. subst x. exists b. auto.
    + apply (IH bs i a eq_refl Hi).
Qed.

Lemma rmap_Forall2 :
  forall A B (f : A -> result B) (P : A -> B -> Prop) l,
    (forall a, In a l -> exists b, f a = Ret b /\ P a b) ->
    exists bs, rmap f l = Ret bs /\ Forall2 P l bs.
Proof.
  induction l as [|a l IH]; intros H.
  - exists []. split; constructor.
  - destruct (H a (or_introl eq_refl)) as (b & Fb & Pb).
    destruct IH as (bs & Fbs & Pbs).
    { intros x Hx. apply H. right. exact Hx. }
    exists (b :: bs). simpl. rewrite Fb, Fbs. split; [reflexivity|].
    constructor; assumption.
Qed.

(** The loop keeps the trimmed rows that have the shape of a record and
    turns each into a record, in order; the first failure stops it. *)
Lemma parse_rows_rmap :
  forall rows,
    parse_rows rows = rmap row_record (filter shaped (map str_strip rows)).
Proof.
  induction rows as [|line rows IH].
  - reflexivity.
  - cbn [parse_rows map filter]. unfold shaped at 1.
    destruct (0 <? length (str_strip line))%nat; simpl; [|exact IH].
    destruct (count_go [TAB] 0 (str_strip line) =? 2)%nat; [|exact IH].
    cbn [rmap]. rewrite <- IH. unfold row_record. simpl.
    set (parts := split_go [TAB] 0 [] (str_strip line)).
    destruct (py_index parts 0); simpl; [|reflexivity].
    destruct (py_index parts 1); simpl; [|reflexivity].
    destruct (py_index parts 2) as [field|]; simpl; [|reflexivity].
    destruct (py_float field); simpl; [|reflexivity].
    destruct (parse_rows rows); reflexivity.
Qed.

Lemma parse_raw_result_rmap :
  forall block, _parse_raw_result block = rmap row_record (shaped_rows block).
Proof.
  intros block. unfold _parse_raw_result, shaped_rows. simpl.
  apply parse_rows_rmap.
Qed.

Lemma shaped_three_parts :
  forall l, shaped l = true ->
    exists a b c, split_go [TAB] 0 [] l = [a; b; c].
Proof.
  intros l H. unfold shaped in H. apply andb_true_iff in H.
  destruct H as [_ H]. apply Nat.eqb_eq in H. simpl in H.
  pose proof (split_go_length [TAB] l 0 []) as L. rewrite H in L.
  destruct (split_go [TAB] 0 [] l) as [|a [|b [|c [|d t]]]];
    simpl in L; try discriminate.
  exists a, b, c. reflexivity.
Qed.

Lemma row_record_parts :
  forall l a b c,
    split_go [TAB] 0 [] l = [a; b; c] ->
    row_record l = (f <~ py_float c ;; Ret (a, b, f))%result.
Proof.
  intros l a b c H. unfold row_record. simpl. rewrite H. reflexivity.
Qed.

Lemma py_float_raises_ValueError :
  forall s e, py_float s = Raise e -> e = ValueError.
Proof.
  intros s e H. unfold py_float in H.
  destruct (drop_underscores 0 _) as [u|]; [|inversion H; reflexivity].
  destruct (parse_float_literal u); inversion H. reflexivity.
Qed.

Lemma shaped_rows_split :
  forall block rows1 line rows2,
    split_go CRLF 0 [] block = rows1 ++ line :: rows2 ->
    shaped_rows block
    = filter shaped (map str_strip rows1)
      ++ (if shaped (str_strip line) then [str_strip line] else [])
      ++ filter shaped (map str_strip rows2).
Proof.
  intros block rows1 line rows2 H. unfold shaped_rows.
  rewrite H, map_app, filter_app. simpl.
  destruct (shaped (str_strip line)); reflexivity.
Qed.

(** ** The claims on the parser *)

(** C5, as stated, fails: a row with two tabs whose third field is not a
    number is not skipped.  [float] raises [ValueError] and nothing
    catches it, so parsing the block ["a\tb\tc"] raises. *)
Lemma non_numeric_field_not_skipped :
  let line := lit "a" ++ [TAB] ++ lit "b" ++ [TAB] ++ lit "c" in
  split_go CRLF 0 [] line = [line]
  /\ str_strip line <> []
  /\ split_go [TAB] 0 [] (str_strip line) = [lit "a"; lit "b"; lit "c"]
  /\ py_float (lit "c") = Raise ValueError
  /\ _parse_raw_result line = Raise ValueError
  /\ _parse_raw_result line <> parse_rows [].
Proof.
  cbv zeta. repeat split; try reflexivity; discriminate.
Qed.

(** C5, amended. A row that is not empty once trimmed and does not hold
    exactly two tabs (one tab only, say) is skipped: the block parses as
    if the row were not there, so the row adds no record and raises
    nothing.  A row with exactly two tabs whose third field [float]
    rejects is not skipped: parsing the block raises, and raises
    [ValueError] when the rows before it parse. *)
Theorem ill_shaped_rows_are_skipped :
  forall block rows1 line rows2,
    split_go CRLF 0 [] block = rows1 ++ line :: rows2 ->
    str_strip line <> [] ->
    (str_count [TAB] (str_strip line) <> 2%nat ->
     _parse_raw_result block = parse_rows (rows1 ++ rows2))
    /\ (forall a b c,
          split_go [TAB] 0 [] (str_strip line) = [a; b; c] ->
          py_float c = Raise ValueError ->
          (exists e, _parse_raw_result block = Raise e)
          /\ (forall recs, parse_rows rows1 = Ret recs ->
                _parse_raw_result block = Raise ValueError)).
Proof.
  intros block rows1 line rows2 Hsplit Hne.
  pose proof (shaped_rows_split block rows1 line rows2 Hsplit) as E.
  split.
  - intros Hcount.
    assert (S : shaped (str_strip line) = false).
    { unfold shaped. apply andb_false_iff. right.
      apply Nat.eqb_neq. exact Hcount. }
    rewrite S in E. rewrite parse_raw_result_rmap, E, parse_rows_rmap.
    rewrite map_app, filter_app. reflexivity.
  - intros a b c Hparts Hfloat.
    assert (S : shaped (str_strip line) = true).
    { unfold shaped. apply andb_true_iff. split.
      - destruct (str_strip line); [contradiction|reflexivity].
      - apply Nat.eqb_eq. simpl.
        pose proof (split_go_length [TAB] (str_strip line) 0 []) as L.
        rewrite Hparts in L. simpl in L. lia. }
    rewrite S in E.
    assert (R : row_record (str_strip line) = Raise ValueError).
    { rewrite (row_record_parts _ _ _ _ Hparts), Hfloat. reflexivity. }
    rewrite parse_raw_result_rmap, E, rmap_app.
    rewrite <- parse_rows_rmap. simpl. rewrite R.
    split.
    + destruct (parse_rows rows1) as [x|e]; simpl; eauto.
    + intros recs Hr. rewrite Hr. reflexivity.
Qed.

Lemma ill_shaped_rows_are_skipped_witness :
  let header := lit "Tokens" ++ [TAB] ++ lit "Tags" in
  let good := lit "x" ++ [TAB] ++ lit "N" ++ [TAB] ++ lit "0.5" in
  let block := good ++ CRLF ++ header ++ CRLF ++ good in
  _parse_raw_result block = parse_rows ([good] ++ [good])
  /\ _parse_raw_result block
     = Ret [(lit "x", lit "N", S754_finite false 4503599627370496 (-53));
            (lit "x", lit "N", S754_finite false 4503599627370496 (-53))].
Proof.
  intros header good block. split; [|reflexivity].
  apply (@ill_shaped_rows_are_skipped block [good] header [good]).
  - reflexivity.
  - discriminate.
  - vm_compute. discriminate.
Defined.

(** C6, as stated, fails for the same reason: in the block below both
    rows have the shape of a record, yet no record comes out, because the
    third field of the second row is not a number and [float] raises. *)
Lemma shaped_row_without_record :
  let block := lit "a" ++ [TAB] ++ lit "N" ++ [TAB] ++ lit "0.9" ++ CRLF
               ++ lit "b" ++ [TAB] ++ lit "V" ++ [TAB] ++ lit "n/a" in
  shaped_rows block
  = [lit "a" ++ [TAB] ++ lit "N" ++ [TAB] ++ lit "0.9";
     lit "b" ++ [TAB] ++ lit "V" ++ [TAB] ++ lit "n/a"]
  /\ _parse_raw_result block = Raise ValueError.
Proof.
  cbv zeta. split; reflexivity.
Qed.

(** C6, amended. The block is cut into rows at [\r\n]; provided [float]
    accepts the third field of every row that, once trimmed, is not
    empty and holds exactly two tabs, the parser returns exactly one
    record for each of these rows, in the order of the rows: the three
    tab-separated fields, the third one converted by [float]. *)
Theorem one_record_per_shaped_row :
  forall block,
    (forall l c,
       In l (shaped_rows block) ->
       nth_error (split_go [TAB] 0 [] l) 2 = Some c ->
       exists f, py_float c = Ret f) ->
    exists recs,
      _parse_raw_result block = Ret recs
      /\ Forall2
           (fun l r =>
              exists c,
                split_go [TAB] 0 [] l = [fst (fst r); snd (fst r); c]
                /\ py_float c = Ret (snd r))
           (shaped_rows block) recs.
Proof.
  intros block H. rewrite parse_raw_result_rmap.
  apply rmap_Forall2. intros l Hl.
  assert (S : shaped l = true).
  { unfold shaped_rows in Hl. apply filter_In in Hl. apply Hl. }
  destruct (shaped_three_parts l S) as (a & b & c & Hparts).
  destruct (H l c Hl) as [f Hf].
  { rewrite Hparts. reflexivity. }
  exists (a, b, f). split.
  - rewrite (row_record_parts _ _ _ _ Hparts), Hf. reflexivity.
  - exists c. simpl. auto.
Qed.

Lemma one_record_per_shaped_row_witness :
  let block := lit "this" ++ [TAB] ++ lit "D" ++ [TAB] ++ lit "0.5" ++ CRLF
               ++ lit "no tabs here" ++ CRLF
               ++ lit "is" ++ [TAB] ++ lit "V" ++ [TAB] ++ lit "1e-3" in
  exists recs,
    _parse_raw_result block = Ret recs
    /\ Forall2
         (fun l r =>
            exists c,
              split_go [TAB] 0 [] l = [fst (fst r); snd (fst r); c]
              /\ py_float c = Ret (snd r))
         (shaped_rows block) recs.
Proof.
  intros block.
  apply (@one_record_per_shaped_row block).
  intros l c Hl Hc. vm_compute in Hl.
  destruct Hl as [<-|[<-|[]]]; vm_compute in Hc; inversion Hc; subst c;
    eexists; vm_compute; reflexivity.
Defined.

(** ** Splitting where the separators are known *)

Lemma search_unfold :
  forall pat s,
    search pat s
    = if starts_with pat s then Some ([], skipn (length pat) s)
      else match s with
           | [] => None
           | c :: s' =>
               match search pat s' with
               | Some (pre, post) => Some (c :: pre, post)
               | None => None
               end
           end.
Proof. intros pat s. destruct s; reflexivity. Qed.

Lemma starts_with_app_mono :
  forall pre s t, starts_with pre s = true -> starts_with pre (s ++ t) = true.
Proof.
  intros pre s t H. destruct (starts_with_true_app _ _ H) as [r ->].
  rewrite <- app_assoc. apply starts_with_app_self.
Qed.

Lemma clean_before_app :
  forall sep a b tail,
    clean_before sep (a ++ b) tail
    = clean_before sep a (b ++ tail) && clean_before sep b tail.
Proof.
  induction a as [|c a IH]; intros b tail.
  - reflexivity.
  - cbn [app clean_before]. rewrite IH, <- app_assoc, andb_assoc.
    reflexivity.
Qed.

Lemma split_go_clean :
  forall sep x tail cur,
    clean_before sep x tail = true ->
    split_go sep 0 cur (x ++ tail) = split_go sep 0 (rev x ++ cur) tail.
Proof.
  induction x as [|c x IH]; intros tail cur H.
  - reflexivity.
  - cbn [clean_before] in H. apply andb_true_iff in H. destruct H as [H1 H2].
    apply negb_true_iff in H1. cbn [app split_go]. cbn [app] in H1.
    rewrite H1, (IH tail (c :: cur) H2). cbn [rev].
    rewrite <- app_assoc. reflexivity.
Qed.

Lemma split_go_match :
  forall sep cur r,
    sep <> [] ->
    split_go sep 0 cur (sep ++ r) = rev cur :: split_go sep 0 [] r.
Proof.
  intros sep cur r Hsep. destruct sep as [|x sep]; [contradiction|].
  cbn [app split_go]. change (x :: sep ++ r) with ((x :: sep) ++ r).
  rewrite starts_with_app_self. cbn [length pred].
  rewrite split_go_skip. reflexivity.
Qed.

Lemma split_go_piece :
  forall sep x r,
    sep <> [] ->
    clean_before sep x (sep ++ r) = true ->
    split_go sep 0 [] (x ++ sep ++ r) = x :: split_go sep 0 [] r.
Proof.
  intros sep x r Hsep H.
  rewrite (split_go_clean _ _ _ [] H), split_go_match by assumption.
  rewrite app_nil_r, rev_involutive. reflexivity.
Qed.

Lemma split_go_last :
  forall sep x,
    clean_before sep x [] = true ->
    split_go sep 0 [] x = [x].
Proof.
  intros sep x H. rewrite <- (app_nil_r x) at 1.
  rewrite (split_go_clean _ _ _ [] H). simpl.
  rewrite app_nil_r, rev_involutive. reflexivity.
Qed.

Lemma search_clean :
  forall pat x r,
    clean_before pat x (pat ++ r) = true ->
    search pat (x ++ pat ++ r) = Some (x, r).
Proof.
  induction x as [|c x IH]; intros r H.
  - cbn [app]. rewrite search_unfold, starts_with_app_self.
    f_equal. f_equal. clear H.
    induction pat as [|a pat IHp]; [reflexivity|exact IHp].
  - cbn [clean_before] in H. apply andb_true_iff in H. destruct H as [H1 H2].
    apply negb_true_iff in H1. rewrite search_unfold, H1.
    cbn [app]. rewrite (IH r H2). reflexivity.
Qed.

(** A separator that holds a character foreign to the text matches
    nowhere. *)
Lemma starts_with_In :
  forall pre s ch, starts_with pre s = true -> In ch pre -> In ch s.
Proof.
  intros pre s ch H Hin. destruct (starts_with_true_app _ _ H) as [r ->].
  apply in_or_app. left. exact Hin.
Qed.

Lemma clean_before_foreign :
  forall sep x tail ch,
    In ch sep -> ~ In ch (x ++ tail) -> clean_before sep x tail = true.
Proof.
  induction x as [|c x IH]; intros tail ch Hs Hn.
  - reflexivity.
  - cbn [clean_before]. apply andb_true_iff. split.
    + apply negb_true_iff.
      destruct (starts_with sep ((c :: x) ++ tail)) eqn:E; [|reflexivity].
      exfalso. apply Hn. apply (starts_with_In _ _ ch E Hs).
    + apply (IH tail ch Hs). intros Hin. apply Hn. right. exact Hin.
Qed.

(** A separator whose first character is foreign to [x] cannot start
    inside [x]. *)
Lemma clean_before_head :
  forall c sep x tail,
    ~ In c x -> clean_before (c :: sep) x tail = true.
Proof.
  induction x as [|y x IH]; intros tail Hn.
  - reflexivity.
  - cbn [clean_before app starts_with].
    assert (E : (c =? y) = false).
    { apply N.eqb_neq. intros ->. apply Hn. left. reflexivity. }
    rewrite E. simpl. apply IH. intros Hin. apply Hn. right. exact Hin.
Qed.

(** *** Joining what was split gives the text back, and no piece holds
    the separator *)

Lemma split_go_join :
  forall sep n s cur,
    sep <> [] -> (length s <= n)%nat ->
    str_join sep (split_go sep 0 cur s) = rev cur ++ s.
Proof.
  intros sep. induction n as [|n IH]; intros s cur Hsep Hlen.
  - destruct s; [|simpl in Hlen; lia]. simpl. rewrite app_nil_r.
    reflexivity.
  - destruct s as [|c s].
    + simpl. rewrite app_nil_r. reflexivity.
    + destruct (starts_with sep (c :: s)) eqn:E.
      * destruct (starts_with_true_app _ _ E) as [r Hr]. rewrite Hr.
        rewrite split_go_match by assumption.
        rewrite str_join_cons by apply split_go_not_nil.
        rewrite (IH r []); [reflexivity|assumption|].
        assert (L : length (c :: s) = (length sep + length r)%nat).
        { rewrite Hr. apply length_app. }
        destruct sep; [contradiction|]. simpl in *. lia.
      * cbn [split_go]. rewrite E.
        rewrite (IH s (c :: cur)); [|assumption|simpl in Hlen; lia].
        cbn [rev]. rewrite <- app_assoc. reflexivity.
Qed.

Lemma str_join_split :
  forall sep s, sep <> [] -> str_join sep (split_go sep 0 [] s) = s.
Proof.
  intros sep s H. apply (@split_go_join sep (length s) s [] H). lia.
Qed.

Lemma clean_before_snoc :
  forall sep x c tail,
    clean_before sep (x ++ [c]) tail
    = clean_before sep x (c :: tail) && negb (starts_with sep (c :: tail)).
Proof.
  intros sep x c tail. rewrite clean_before_app. simpl.
  rewrite andb_true_r. reflexivity.
Qed.

Lemma clean_before_absent :
  forall sep x tail,
    sep <> [] -> clean_before sep x tail = true -> absent sep x.
Proof.
  unfold absent. induction x as [|c x IH]; intros tail Hsep H.
  - destruct sep; [contradiction|reflexivity].
  - cbn [clean_before] in H. apply andb_true_iff in H. destruct H as [H1 H2].
    apply negb_true_iff in H1. rewrite search_unfold.
    destruct (starts_with sep (c :: x)) eqn:E.
    + rewrite (starts_with_app_mono _ _ tail E) in H1. discriminate.
    + rewrite (IH tail Hsep H2). reflexivity.
Qed.

Lemma split_go_pieces_absent :
  forall sep n s cur,
    sep <> [] -> (length s <= n)%nat ->
    clean_before sep (rev cur) s = true ->
    Forall (absent sep) (split_go sep 0 cur s).
Proof.
  intros sep. induction n as [|n IH]; intros s cur Hsep Hlen Hc.
  - destruct s; [|simpl in Hlen; lia]. constructor; [|constructor].
    apply (@clean_before_absent _ _ _ Hsep Hc).
  - destruct s as [|c s].
    + constructor; [|constructor].
      apply (@clean_before_absent _ _ _ Hsep Hc).
    + destruct (starts_with sep (c :: s)) eqn:E.
      * destruct (starts_with_true_app _ _ E) as [r Hr]. rewrite Hr.
        rewrite split_go_match by assumption. constructor.
        -- apply (@clean_before_absent _ _ _ Hsep Hc).
        -- apply IH; [assumption| |reflexivity].
           assert (L : length (c :: s) = (length sep + length r)%nat).
           { rewrite Hr. apply length_app. }
           destruct sep; [contradiction|]. simpl in *. lia.
      * cbn [split_go]. rewrite E. apply IH; [assumption| |].
        -- simpl in Hlen. lia.
        -- cbn [rev]. rewrite clean_before_snoc, Hc, E. reflexivity.
Qed.

Lemma split_pieces_absent :
  forall sep s, sep <> [] -> Forall (absent sep) (split_go sep 0 [] s).
Proof.
  intros sep s H. apply (@split_go_pieces_absent sep (length s) s [] H).
  - lia.
  - reflexivity.
Qed.

(** ** Trimming *)

Lemma lstrip_starts :
  forall ws s c r, lstrip ws s = c :: r -> ws c = false.
Proof.
  induction s as [|a s IH]; intros c r H; simpl in H.
  - discriminate.
  - destruct (ws a) eqn:E; [apply (IH c r H)|].
    inversion H. subst a. exact E.
Qed.

Lemma lstrip_snoc_keep :
  forall ws u d, ws d = false -> lstrip ws (u ++ [d]) = lstrip ws u ++ [d].
Proof.
  induction u as [|a u IH]; intros d H; simpl.
  - rewrite H. reflexivity.
  - destruct (ws a); [apply IH; exact H|reflexivity].
Qed.

Lemma rstrip_cons_keep :
  forall ws d t, ws d = false -> rstrip ws (d :: t) = d :: rstrip ws t.
Proof.
  intros ws d t H. unfold rstrip. cbn [rev].
  rewrite lstrip_snoc_keep by exact H.
  rewrite rev_app_distr. reflexivity.
Qed.

Lemma rstrip_ends :
  forall ws s i c, rstrip ws s = i ++ [c] -> ws c = false.
Proof.
  intros ws s i c H. unfold rstrip in H.
  apply (f_equal (@rev N)) in H. rewrite rev_involutive, rev_app_distr in H.
  eapply lstrip_starts. exact H.
Qed.

Lemma str_strip_starts :
  forall s c r, str_strip s = c :: r -> isspace c = false.
Proof.
  intros s c r H. unfold str_strip in H.
  destruct (lstrip isspace s) as [|d t] eqn:E.
  - discriminate.
  - assert (Hd : isspace d = false) by (eapply lstrip_starts; exact E).
    rewrite rstrip_cons_keep in H by exact Hd.
    inversion H. subst d. exact Hd.
Qed.

Lemma str_strip_ends :
  forall s i c, str_strip s = i ++ [c] -> isspace c = false.
Proof.
  intros s i c H. unfold str_strip in H. eapply rstrip_ends. exact H.
Qed.

Lemma lstrip_id :
  forall ws s, starts_ok (fun c => ws c = false) s -> lstrip ws s = s.
Proof.
  intros ws s H. destruct s as [|c s]; [contradiction|].
  simpl in *. rewrite H. reflexivity.
Qed.

Lemma rstrip_id :
  forall ws s, ends_ok (fun c => ws c = false) s -> rstrip ws s = s.
Proof.
  intros ws s H. unfold rstrip, ends_ok in *.
  rewrite lstrip_id by exact H. apply rev_involutive.
Qed.

Lemma str_join_nil_concat :
  forall l, str_join [] l = concat l.
Proof.
  induction l as [|x l IH].
  - reflexivity.
  - destruct l as [|y l].
    + simpl. rewrite app_nil_r. reflexivity.
    + rewrite str_join_cons by discriminate. rewrite IH. reflexivity.
Qed.

(** ** UTF-8: encoding well-formed text, and decoding it back *)

(** Division and remainder by a constant, for [lia]. *)
Ltac Zify.zify_post_hook ::= Z.to_euclidean_division_equations.

Lemma utf8_encode_char_valid :
  forall c, valid c -> utf8_encode_char c = Ret (enc1 c) /\ enc1 c <> [].
Proof.
  intros c [Hs Hc]. unfold enc1, utf8_encode_char. rewrite Hs.
  destruct (c <? 0x80); [split; [reflexivity|discriminate]|].
  destruct (c <? 0x800); [split; [reflexivity|discriminate]|].
  destruct (c <? 0x10000); [split; [reflexivity|discriminate]|].
  apply N.ltb_lt in Hc. rewrite Hc. split; [reflexivity|discriminate].
Qed.

Lemma utf8_encode_valid :
  forall s, Forall valid s -> utf8_encode s = Ret (utf8 s).
Proof.
  induction s as [|c s IH]; intros H.
  - reflexivity.
  - inversion H as [|? ? Hc Hs]. subst. simpl.
    destruct (utf8_encode_char_valid _ Hc) as [E _].
    rewrite E, (IH Hs). reflexivity.
Qed.

Lemma utf8_app : forall a b, utf8 (a ++ b) = utf8 a ++ utf8 b.
Proof. intros a b. apply flat_map_app. Qed.

Lemma utf8_join :
  forall sep l, utf8 (str_join sep l) = str_join (utf8 sep) (map utf8 l).
Proof.
  intros sep. induction l as [|x l IH].
  - reflexivity.
  - destruct l as [|y l].
    + reflexivity.
    + rewrite str_join_cons by discriminate.
      rewrite !utf8_app, IH. cbn [map].
      symmetry. apply str_join_cons. discriminate.
Qed.

(** An octet below 128 in the encoding is a character of the text. *)
Lemma enc1_ascii :
  forall c b, In b (enc1 c) -> b < 0x80 -> b = c.
Proof.
  intros c b Hin Hb. unfold enc1, utf8_encode_char in Hin.
  destruct (c <? 0x80).
  { cbn [In] in Hin. destruct Hin as [<-|[]]. reflexivity. }
  destruct (c <? 0x800).
  { cbn [In] in Hin. destruct Hin as [<-|[<-|[]]]; lia. }
  destruct (is_surrogate c); [contradiction|].
  destruct (c <? 0x10000).
  { cbn [In] in Hin. destruct Hin as [<-|[<-|[<-|[]]]]; lia. }
  destruct (c <? 0x110000); [|contradiction].
  cbn [In] in Hin. destruct Hin as [<-|[<-|[<-|[<-|[]]]]]; lia.
Qed.

Lemma utf8_ascii :
  forall s b, In b (utf8 s) -> b < 0x80 -> In b s.
Proof.
  intros s b Hin Hb. unfold utf8 in Hin. apply in_flat_map in Hin.
  destruct Hin as (c & Hc & Hbc).
  rewrite (enc1_ascii _ _ Hbc Hb). exact Hc.
Qed.

Lemma utf8_not_nil :
  forall s, s <> [] -> Forall valid s -> utf8 s <> [].
Proof.
  intros s Hne Hv. destruct s as [|c s]; [contradiction|].
  inversion Hv as [|? ? Hc _]. subst.
  destruct (utf8_encode_char_valid _ Hc) as [_ E].
  simpl. intros H. apply app_eq_nil in H. destruct H as [H _].
  contradiction.
Qed.

Ltac settle_test :=
  match goal with
  | |- context [?a <? ?b] =>
      first [ replace (a <? b) with true by (symmetry; apply N.ltb_lt; lia)
            | replace (a <? b) with false by (symmetry; apply N.ltb_ge; lia) ]
  | |- context [?a <=? ?b] =>
      first [ replace (a <=? b) with true by (symmetry; apply N.leb_le; lia)
            | replace (a <=? b) with false by (symmetry; apply N.leb_gt; lia) ]
  end.

Lemma utf8_decode_enc1 :
  forall c bs,
    valid c ->
    utf8_decode (enc1 c ++ bs) = cons_ret c (utf8_decode bs).
Proof.
  intros c bs [Hs Hc]. unfold enc1, utf8_encode_char. rewrite Hs.
  destruct (N.ltb_spec c 0x80) as [H1|H1].
  { cbn [app utf8_decode]. settle_test. reflexivity. }
  destruct (N.ltb_spec c 0x800) as [H2|H2].
  { cbn [app utf8_decode]. unfold is_cont.
    replace ((0xC0 + c / 64 - 0xC0) * 64 + (0x80 + c mod 64 - 0x80))
      with c by lia.
    repeat settle_test. reflexivity. }
  destruct (N.ltb_spec c 0x10000) as [H3|H3].
  { cbn [app utf8_decode]. unfold is_cont. cbv zeta.
    replace ((0xE0 + c / 4096 - 0xE0) * 4096
             + (0x80 + (c / 64) mod 64 - 0x80) * 64
             + (0x80 + c mod 64 - 0x80))
      with c by lia.
    rewrite Hs. repeat settle_test. reflexivity. }
  destruct (N.ltb_spec c 0x110000) as [H4|H4]; [|lia].
  cbn [app utf8_decode]. unfold is_cont. cbv zeta.
  replace ((0xF0 + c / 262144 - 0xF0) * 262144
           + (0x80 + (c / 4096) mod 64 - 0x80) * 4096
           + (0x80 + (c / 64) mod 64 - 0x80) * 64
           + (0x80 + c mod 64 - 0x80))
    with c by lia.
  repeat settle_test. reflexivity.
Qed.

Lemma utf8_decode_utf8 :
  forall s, Forall valid s -> utf8_decode (utf8 s) = Ret s.
Proof.
  induction s as [|c s IH]; intros H.
  - reflexivity.
  - inversion H as [|? ? Hc Hs]. subst. cbn [utf8 flat_map].
    rewrite utf8_decode_enc1 by exact Hc.
    fold (utf8 s). rewrite (IH Hs). reflexivity.
Qed.

(** ** Rows joined into blocks, blocks joined into a response *)

Lemma Forall_str_join :
  forall (Q : N -> Prop) sep l,
    Forall Q sep -> Forall (Forall Q) l -> Forall Q (str_join sep l).
Proof.
  intros Q sep l Hsep. induction l as [|x l IH]; intros H.
  - constructor.
  - inversion H as [|? ? Hx Hl]. subst. destruct l as [|y l].
    + exact Hx.
    + rewrite str_join_cons by discriminate.
      apply Forall_app. split; [exact Hx|].
      apply Forall_app. split; [exact Hsep|]. apply IH. exact Hl.
Qed.

Lemma starts_ok_app :
  forall P a b, starts_ok P a -> starts_ok P (a ++ b).
Proof. intros P a b H. destruct a; [contradiction|exact H]. Qed.

Lemma ends_ok_app :
  forall P a b, ends_ok P b -> ends_ok P (a ++ b).
Proof.
  intros P a b H. unfold ends_ok in *. rewrite rev_app_distr.
  apply starts_ok_app. exact H.
Qed.

Lemma starts_ok_impl :
  forall (P Q : N -> Prop) s,
    (forall c, P c -> Q c) -> starts_ok P s -> starts_ok Q s.
Proof. intros P Q s H Hs. destruct s; [contradiction|apply H; exact Hs]. Qed.

Lemma ends_ok_impl :
  forall (P Q : N -> Prop) s,
    (forall c, P c -> Q c) -> ends_ok P s -> ends_ok Q s.
Proof. intros P Q s H Hs. apply (starts_ok_impl P Q _ H Hs). Qed.

Lemma starts_ok_Forall :
  forall P s, s <> [] -> Forall P s -> starts_ok P s.
Proof.
  intros P s Hne H. destruct s; [contradiction|].
  inversion H. assumption.
Qed.

Lemma ends_ok_Forall :
  forall P s, s <> [] -> Forall P s -> ends_ok P s.
Proof.
  intros P s Hne H. apply starts_ok_Forall.
  - intros E. apply Hne. rewrite <- (rev_involutive s), E. reflexivity.
  - apply Forall_rev. exact H.
Qed.

Lemma starts_ok_join :
  forall P sep l,
    l <> [] -> Forall (starts_ok P) l -> starts_ok P (str_join sep l).
Proof.
  intros P sep l Hne H. destruct l as [|x l]; [contradiction|].
  inversion H as [|? ? Hx _]. subst. destruct l as [|y l].
  - exact Hx.
  - rewrite str_join_cons by discriminate. apply starts_ok_app. exact Hx.
Qed.

Lemma ends_ok_join :
  forall P sep l,
    l <> [] -> Forall (ends_ok P) l -> ends_ok P (str_join sep l).
Proof.
  intros P sep. induction l as [|x l IH]; intros Hne H.
  - contradiction.
  - inversion H as [|? ? Hx Hl]. subst. destruct l as [|y l].
    + exact Hx.
    + rewrite str_join_cons by discriminate.
      apply ends_ok_app, ends_ok_app. apply IH; [discriminate|exact Hl].
Qed.

Lemma solid_head :
  forall r, solid r -> exists d t, r = d :: t /\ d <> CR.
Proof.
  intros r [Hne Hcr]. destruct r as [|d t]; [contradiction|].
  exists d, t. split; [reflexivity|].
  intros ->. apply Hcr. left. reflexivity.
Qed.

Lemma join_rows_head :
  forall rows,
    rows <> [] -> Forall solid rows ->
    exists d t, str_join CRLF rows = d :: t /\ d <> CR.
Proof.
  intros rows Hne H. destruct rows as [|x l]; [contradiction|].
  inversion H as [|? ? Hx _]. subst.
  destruct (solid_head x Hx) as (d & t & -> & Hd).
  destruct l as [|y l].
  - exists d, t. auto.
  - rewrite str_join_cons by discriminate.
    exists d, (t ++ CRLF ++ str_join CRLF (y :: l)). auto.
Qed.

(** A pattern that begins with [\r\n\r] cannot start inside a block. *)
Lemma clean_rows :
  forall sep rows tail,
    Forall solid rows ->
    clean_before (CR :: LF :: CR :: sep) (str_join CRLF rows) tail = true.
Proof.
  intros sep. induction rows as [|x l IH]; intros tail H.
  - reflexivity.
  - inversion H as [|? ? Hx Hl]. subst. destruct l as [|y l].
    + apply clean_before_head. apply Hx.
    + rewrite str_join_cons by discriminate.
      rewrite !clean_before_app.
      rewrite clean_before_head by apply Hx.
      rewrite (IH tail Hl).
      destruct (join_rows_head (y :: l)) as (d & t & E & Hd);
        [discriminate|exact Hl|].
      rewrite E. apply N.eqb_neq in Hd. rewrite N.eqb_sym in Hd.
      unfold CRLF. cbn [clean_before app starts_with].
      rewrite Hd. reflexivity.
Qed.

Lemma join_blocks_head :
  forall bs,
    bs <> [] -> Forall (fun b => b <> [] /\ Forall solid b) bs ->
    exists d t,
      str_join CRLFCRLF (map (str_join CRLF) bs) = d :: t /\ d <> CR.
Proof.
  intros bs Hne H. destruct bs as [|b l]; [contradiction|].
  inversion H as [|? ? [Hb1 Hb2] _]. subst.
  destruct (join_rows_head b Hb1 Hb2) as (d & t & E & Hd).
  destruct l as [|b' l].
  - exists d, t. auto.
  - cbn [map]. rewrite str_join_cons by discriminate. rewrite E.
    eexists d, _. split; [reflexivity|exact Hd].
Qed.

(** The marker cannot start inside a response. *)
Lemma clean_blocks :
  forall bs tail,
    Forall (fun b => b <> [] /\ Forall solid b) bs ->
    clean_before marker (str_join CRLFCRLF (map (str_join CRLF) bs)) tail
    = true.
Proof.
  induction bs as [|b l IH]; intros tail H.
  - reflexivity.
  - inversion H as [|? ? [Hb1 Hb2] Hl]. subst. destruct l as [|b' l].
    + apply (clean_rows [LF; CR; LF]). exact Hb2.
    + cbn [map]. rewrite str_join_cons by discriminate.
      rewrite !clean_before_app.
      unfold marker at 1. rewrite clean_rows by exact Hb2.
      change (str_join CRLF b' :: map (str_join CRLF) l)
        with (map (str_join CRLF) (b' :: l)).
      rewrite (IH tail Hl).
      destruct (join_blocks_head (b' :: l)) as (d & t & E & Hd);
        [discriminate|exact Hl|].
      rewrite E. apply N.eqb_neq in Hd. rewrite N.eqb_sym in Hd.
      unfold CRLFCRLF, marker. cbn [clean_before app starts_with].
      rewrite Hd. reflexivity.
Qed.

Lemma split_blocks :
  forall bs,
    bs <> [] -> Forall (fun b => b <> [] /\ Forall solid b) bs ->
    split_go CRLFCRLF 0 [] (str_join CRLFCRLF (map (str_join CRLF) bs))
    = map (str_join CRLF) bs.
Proof.
  induction bs as [|b l IH]; intros Hne H.
  - contradiction.
  - inversion H as [|? ? [Hb1 Hb2] Hl]. subst. destruct l as [|b' l].
    + apply split_go_last. apply (clean_rows [LF]). exact Hb2.
    + cbn [map]. rewrite str_join_cons by discriminate.
      rewrite split_go_piece.
      * f_equal. apply IH; [discriminate|exact Hl].
      * discriminate.
      * apply (clean_rows [LF]). exact Hb2.
Qed.

Lemma split_rows :
  forall rows,
    rows <> [] -> Forall solid rows ->
    split_go CRLF 0 [] (str_join CRLF rows) = rows.
Proof.
  induction rows as [|x l IH]; intros Hne H.
  - contradiction.
  - inversion H as [|? ? Hx Hl]. subst. destruct l as [|y l].
    + apply split_go_last. apply clean_before_head. apply Hx.
    + rewrite str_join_cons by discriminate.
      rewrite split_go_piece.
      * f_equal. apply IH; [discriminate|exact Hl].
      * discriminate.
      * apply clean_before_head. apply Hx.
Qed.

(** ** One row, one block, one response *)

Lemma plain_not_special :
  forall c, plain c -> c <> TAB /\ c <> CR /\ c <> LF /\ c <> SP.
Proof.
  intros c [H _]. repeat split; intros ->; discriminate H.
Qed.

Lemma plain_not_in :
  forall s, Forall plain s -> ~ In TAB s /\ ~ In CR s /\ ~ In SP s.
Proof.
  intros s H. rewrite Forall_forall in H.
  repeat split; intros Hin; apply H in Hin;
    apply plain_not_special in Hin; tauto.
Qed.

Lemma row_text_chars :
  forall r, row_ok r ->
    Forall (fun c => valid c /\ c <> CR /\ c <> SP) (row_text r).
Proof.
  intros r (_ & H1 & H2 & _ & H3).
  assert (P : forall s, Forall plain s ->
                Forall (fun c => valid c /\ c <> CR /\ c <> SP) s).
  { intros s H. apply (Forall_impl _ (P := plain)); [|exact H].
    intros c Hc. pose proof (plain_not_special c Hc). destruct Hc. tauto. }
  assert (T : Forall (fun c => valid c /\ c <> CR /\ c <> SP) [TAB]).
  { constructor; [|constructor]. repeat split; discriminate. }
  unfold row_text. repeat (apply Forall_app; split); auto.
Qed.

Lemma row_text_solid : forall r, row_ok r -> solid (row_text r).
Proof.
  intros r H. split.
  - destruct H as (Hne & _). unfold row_text.
    destruct (row_tokens r); [contradiction|discriminate].
  - pose proof (row_text_chars r H) as F. rewrite Forall_forall in F.
    intros Hin. apply F in Hin. destruct Hin as (_ & Hcr & _).
    apply Hcr. reflexivity.
Qed.

Lemma row_text_starts : forall r, row_ok r -> starts_ok plain (row_text r).
Proof.
  intros r (Hne & H1 & _). unfold row_text. apply starts_ok_app.
  apply starts_ok_Forall; assumption.
Qed.

Lemma row_text_ends : forall r, row_ok r -> ends_ok plain (row_text r).
Proof.
  intros r (_ & _ & _ & Hne & H3). unfold row_text.
  repeat apply ends_ok_app. apply ends_ok_Forall; assumption.
Qed.

Lemma row_text_fields :
  forall r, row_ok r ->
    split_go [TAB] 0 [] (row_text r)
    = [row_tokens r; row_tags r; row_confidence r].
Proof.
  intros r (_ & H1 & H2 & _ & H3). unfold row_text.
  rewrite split_go_piece;
    [|discriminate|apply clean_before_head; apply plain_not_in; exact H1].
  rewrite split_go_piece;
    [|discriminate|apply clean_before_head; apply plain_not_in; exact H2].
  rewrite split_go_last;
    [|apply clean_before_head; apply plain_not_in; exact H3].
  reflexivity.
Qed.

Lemma plain_not_space : forall c, plain c -> isspace c = false.
Proof. intros c H. apply H. Qed.

Lemma row_text_strip : forall r, row_ok r -> str_strip (row_text r) = row_text r.
Proof.
  intros r H. unfold str_strip.
  rewrite lstrip_id.
  - apply rstrip_id.
    apply (ends_ok_impl plain _ _ plain_not_space (row_text_ends r H)).
  - apply (starts_ok_impl plain _ _ plain_not_space (row_text_starts r H)).
Qed.

Lemma row_text_shaped : forall r, row_ok r -> shaped (row_text r) = true.
Proof.
  intros r H. unfold shaped. apply andb_true_iff. split.
  - destruct (row_text_solid r H) as [Hne _].
    destruct (row_text r); [contradiction|reflexivity].
  - apply Nat.eqb_eq. cbn [str_count].
    pose proof (split_go_length [TAB] (row_text r) 0 []) as L.
    rewrite (row_text_fields r H) in L. simpl in L. lia.
Qed.

Lemma row_text_record :
  forall r, row_ok r -> row_record (row_text r) = row_value r.
Proof.
  intros r H. rewrite (row_record_parts _ _ _ _ (row_text_fields r H)).
  reflexivity.
Qed.

Lemma rmap_map :
  forall A B C (g : A -> B) (f : B -> result C) l,
    rmap f (map g l) = rmap (fun a => f (g a)) l.
Proof.
  induction l as [|a l IH]; simpl.
  - reflexivity.
  - rewrite IH. reflexivity.
Qed.

Lemma rmap_ext_Forall :
  forall A B (f g : A -> result B) (P : A -> Prop) l,
    (forall a, P a -> f a = g a) -> Forall P l -> rmap f l = rmap g l.
Proof.
  intros A B f g P l H. induction l as [|a l IH]; intros F.
  - reflexivity.
  - inversion F as [|? ? Ha Hl]. subst. simpl.
    rewrite (H a Ha), (IH Hl). reflexivity.
Qed.

Lemma block_rows :
  forall b, b <> [] -> Forall row_ok b ->
    shaped_rows (block_text b) = map row_text b.
Proof.
  intros b Hne H. unfold shaped_rows, block_text.
  rewrite split_rows.
  - clear Hne. induction b as [|r b IH].
    + reflexivity.
    + inversion H as [|? ? Hr Hb]. subst. cbn [map filter].
      rewrite (row_text_strip r Hr), (row_text_shaped r Hr), (IH Hb).
      reflexivity.
  - destruct b; [contradiction|discriminate].
  - apply Forall_map. apply (Forall_impl _ row_text_solid H).
Qed.

Lemma block_parse :
  forall b, b <> [] -> Forall row_ok b ->
    _parse_raw_result (block_text b) = rmap row_value b.
Proof.
  intros b Hne H.
  rewrite parse_raw_result_rmap, (block_rows b Hne H), rmap_map.
  apply (rmap_ext_Forall _ _ _ _ row_ok); [|exact H].
  apply row_text_record.
Qed.

(** ** The octets of a response *)

Lemma isspace_ascii_isspace :
  forall c, isspace c = false -> isspace_ascii c = false.
Proof.
  intros c H. destruct (isspace_ascii c) eqn:E; [|reflexivity].
  unfold isspace_ascii in E. apply orb_true_iff in E.
  unfold isspace in H. repeat (apply orb_false_iff in H; destruct H as [H ?]).
  destruct E as [E|E].
  - rewrite E in H. discriminate.
  - apply N.eqb_eq in E. subst c. discriminate.
Qed.

Ltac settle_eq :=
  match goal with
  | |- context [?a =? ?b] =>
      replace (a =? b) with false by (symmetry; apply N.eqb_neq; lia)
  end.

Lemma enc1_ends :
  forall c, plain c ->
    starts_ok (fun b => isspace_ascii b = false) (enc1 c)
    /\ ends_ok (fun b => isspace_ascii b = false) (enc1 c).
Proof.
  intros c [Hsp [Hs Hc]]. unfold enc1, utf8_encode_char. rewrite Hs.
  destruct (N.ltb_spec c 0x80) as [H1|H1].
  { split; apply isspace_ascii_isspace; exact Hsp. }
  destruct (N.ltb_spec c 0x800) as [H2|H2].
  { split; unfold ends_ok; cbn [rev app starts_ok]; unfold isspace_ascii;
      repeat settle_test; settle_eq; reflexivity. }
  destruct (N.ltb_spec c 0x10000) as [H3|H3].
  { split; unfold ends_ok; cbn [rev app starts_ok]; unfold isspace_ascii;
      repeat settle_test; settle_eq; reflexivity. }
  destruct (N.ltb_spec c 0x110000) as [H4|H4]; [|lia].
  split; unfold ends_ok; cbn [rev app starts_ok]; unfold isspace_ascii;
    repeat settle_test; settle_eq; reflexivity.
Qed.

Lemma utf8_starts :
  forall s, starts_ok plain s ->
    starts_ok (fun b => isspace_ascii b = false) (utf8 s).
Proof.
  intros s H. destruct s as [|c s]; [contradiction|].
  cbn [utf8 flat_map]. apply starts_ok_app. apply enc1_ends. exact H.
Qed.

Lemma utf8_ends :
  forall s, ends_ok plain s ->
    ends_ok (fun b => isspace_ascii b = false) (utf8 s).
Proof.
  intros s H. unfold ends_ok in H.
  destruct (rev s) as [|c t] eqn:E; [contradiction|].
  assert (S : s = rev t ++ [c]).
  { rewrite <- (rev_involutive s), E. reflexivity. }
  rewrite S, utf8_app. apply ends_ok_app.
  cbn [utf8 flat_map]. rewrite app_nil_r. apply enc1_ends. exact H.
Qed.

Lemma utf8_solid :
  forall s, solid s -> Forall valid s -> solid (utf8 s).
Proof.
  intros s [Hne Hcr] Hv. split.
  - apply utf8_not_nil; assumption.
  - intros Hin. apply Hcr. apply utf8_ascii; [exact Hin|].
    unfold CR. lia.
Qed.

Lemma row_text_valid : forall r, row_ok r -> Forall valid (row_text r).
Proof.
  intros r H. apply (Forall_impl _ (P := fun c => valid c /\ c <> CR /\ c <> SP)).
  - tauto.
  - apply row_text_chars. exact H.
Qed.

Lemma response_text_valid :
  forall blocks, Forall rows_ok blocks -> Forall valid (response_text blocks).
Proof.
  intros blocks H. unfold response_text. apply Forall_str_join.
  - repeat constructor.
  - apply Forall_map. apply (Forall_impl _ (P := rows_ok)); [|exact H].
    intros b [_ Hb]. unfold block_text. apply Forall_str_join.
    + repeat constructor.
    + apply Forall_map. apply (Forall_impl _ row_text_valid Hb).
Qed.

Lemma response_text_no_blank :
  forall blocks, Forall rows_ok blocks -> ~ In SP (response_text blocks).
Proof.
  intros blocks H.
  assert (F : Forall (fun c => c <> SP) (response_text blocks)).
  { unfold response_text. apply Forall_str_join.
    - repeat constructor; discriminate.
    - apply Forall_map. apply (Forall_impl _ (P := rows_ok)); [|exact H].
      intros b [_ Hb]. unfold block_text. apply Forall_str_join.
      + repeat constructor; discriminate.
      + apply Forall_map. apply (Forall_impl _ (P := row_ok)); [|exact Hb].
        intros r Hr.
        apply (Forall_impl _ (P := fun c => valid c /\ c <> CR /\ c <> SP)).
        * tauto.
        * apply row_text_chars. exact Hr. }
  rewrite Forall_forall in F. intros Hin. apply (F SP Hin). reflexivity.
Qed.

Lemma block_text_starts :
  forall b, rows_ok b -> starts_ok plain (block_text b).
Proof.
  intros b [Hne H]. unfold block_text. apply starts_ok_join.
  - destruct b; [contradiction|discriminate].
  - apply Forall_map. apply (Forall_impl _ row_text_starts H).
Qed.

Lemma block_text_ends :
  forall b, rows_ok b -> ends_ok plain (block_text b).
Proof.
  intros b [Hne H]. unfold block_text. apply ends_ok_join.
  - destruct b; [contradiction|discriminate].
  - apply Forall_map. apply (Forall_impl _ row_text_ends H).
Qed.

Lemma response_text_starts :
  forall blocks, blocks <> [] -> Forall rows_ok blocks ->
    starts_ok plain (response_text blocks).
Proof.
  intros blocks Hne H. unfold response_text. apply starts_ok_join.
  - destruct blocks; [contradiction|discriminate].
  - apply Forall_map. apply (Forall_impl _ block_text_starts H).
Qed.

Lemma response_text_ends :
  forall blocks, blocks <> [] -> Forall rows_ok blocks ->
    ends_ok plain (response_text blocks).
Proof.
  intros blocks Hne H. unfold response_text. apply ends_ok_join.
  - destruct blocks; [contradiction|discriminate].
  - apply Forall_map. apply (Forall_impl _ block_text_ends H).
Qed.

Lemma response_text_blocks :
  forall blocks, blocks <> [] -> Forall rows_ok blocks ->
    split_go CRLFCRLF 0 [] (response_text blocks) = map block_text blocks.
Proof.
  intros blocks Hne H. unfold response_text.
  assert (E : map block_text blocks
              = map (str_join CRLF) (map (map row_text) blocks)).
  { rewrite map_map. reflexivity. }
  rewrite E. apply split_blocks.
  - destruct blocks; [contradiction|discriminate].
  - apply Forall_map. apply (Forall_impl _ (P := rows_ok)); [|exact H].
    intros b [Hb1 Hb2]. split.
    + destruct b; [contradiction|discriminate].
    + apply Forall_map. apply (Forall_impl _ row_text_solid Hb2).
Qed.

Lemma utf8_response_text :
  forall blocks,
    utf8 (response_text blocks)
    = str_join CRLFCRLF
        (map (str_join CRLF)
             (map (map (fun r => utf8 (row_text r))) blocks)).
Proof.
  intros blocks. unfold response_text. rewrite utf8_join.
  change (utf8 CRLFCRLF) with CRLFCRLF. f_equal.
  rewrite !map_map. apply map_ext. intros b.
  unfold block_text. rewrite utf8_join, map_map. reflexivity.
Qed.

(** The marker that follows a response is the first one of the stream. *)
Lemma search_after_response :
  forall blocks rest,
    Forall rows_ok blocks ->
    search marker (utf8 (response_text blocks) ++ marker ++ rest)
    = Some (utf8 (response_text blocks), rest).
Proof.
  intros blocks rest H. apply search_clean.
  rewrite utf8_response_text. apply clean_blocks.
  apply Forall_map. apply (Forall_impl _ (P := rows_ok)); [|exact H].
  intros b [Hb1 Hb2]. split.
  - destruct b; [contradiction|discriminate].
  - apply Forall_map. apply (Forall_impl _ (P := row_ok)); [|exact Hb2].
    intros r Hr. apply utf8_solid.
    + apply row_text_solid. exact Hr.
    + apply row_text_valid. exact Hr.
Qed.

(** Cleaning leaves a response as it is. *)
Lemma cleaned_response_text :
  forall blocks, blocks <> [] -> Forall rows_ok blocks ->
    cleaned_response (utf8 (response_text blocks))
    = Ret (response_text blocks).
Proof.
  intros blocks Hne H. unfold cleaned_response, bytes_strip.
  rewrite lstrip_id by (apply utf8_starts, response_text_starts; assumption).
  rewrite rstrip_id by (apply utf8_ends, response_text_ends; assumption).
  rewrite utf8_decode_utf8 by (apply response_text_valid; exact H).
  cbn [rbind str_split banner].
  rewrite split_go_last.
  - cbn [str_join]. unfold str_strip.
    rewrite lstrip_id.
    + rewrite rstrip_id; [reflexivity|].
      apply (ends_ok_impl plain _ _ plain_not_space).
      apply response_text_ends; assumption.
    + apply (starts_ok_impl plain _ _ plain_not_space).
      apply response_text_starts; assumption.
  - apply (clean_before_foreign _ _ _ SP).
    + unfold SP. cbn. tauto.
    + rewrite app_nil_r. apply response_text_no_blank. exact H.
Qed.

(** ** The claim on the length and the order of the result *)

(** C1, as stated, fails in two ways.  For the empty batch: no text,
    hence no block before the marker, and yet the result has one entry,
    because splitting the empty text yields one empty block.  And for
    two texts, neither empty, when the block of the first one has no
    row (a text of one blank, say): the separator that follows the empty
    block is trimmed away and the result has one entry, not two. *)
Lemma block_count_differs_from_text_count :
  (let tweets : list str := [] in
   let blocks : list (list wire_row) := [] in
   let w := {| write_error := None;
               output := utf8 (response_text blocks) ++ marker;
               stream_end := TIMEOUT |} in
   length blocks = length tweets
   /\ fst (batch tweets w fresh) = Ret [[]]
   /\ length ([[]] : list (list record)) <> length tweets)
  /\
  (let tweets := [lit " "; lit "x"] in
   let row := {| row_tokens := lit "x"; row_tags := lit "N";
                 row_confidence := lit "0.5" |} in
   let blocks := [[]; [row]] in
   let w := {| write_error := None;
               output := utf8 (response_text blocks) ++ marker;
               stream_end := TIMEOUT |} in
   let rs : list (list record) :=
     [[(lit "x", lit "N", S754_finite false 4503599627370496 (-53))]] in
   length blocks = length tweets
   /\ response_text blocks
      = CRLFCRLF ++ lit "x" ++ [TAB] ++ lit "N" ++ [TAB] ++ lit "0.5"
   /\ fst (batch tweets w fresh) = Ret rs
   /\ length rs <> length tweets).
Proof.
  cbv zeta. repeat split; discriminate.
Qed.

(** C1, amended. For a batch of N >= 1 texts, none empty, none with a
    carriage return or a line feed: if the request goes out and the
    engine answers with one block per text, each a non-empty sequence of
    rows [tokens<TAB>tags<TAB>confidence] joined by [\r\n], the blocks
    joined by [\r\n\r\n] and followed by the marker, and if [float]
    accepts every confidence, then [batch] returns N entries, the i-th
    one being the records of the i-th block, row by row. *)
Theorem one_entry_per_text_in_order :
  forall tweets w st data blocks enc rest rs,
    tweets <> [] ->
    Forall (fun tw => tw <> [] /\ ~ In CR tw /\ ~ In LF tw) tweets ->
    utf8_encode (str_join [LF] (map clean_tweet tweets) ++ [LF; LF])
    = Ret data ->
    write_error w = None ->
    length blocks = length tweets ->
    Forall rows_ok blocks ->
    utf8_encode (response_text blocks) = Ret enc ->
    stream_of w st = enc ++ marker ++ rest ->
    rmap (rmap row_value) blocks = Ret rs ->
    fst (batch tweets w st) = Ret rs /\ length rs = length tweets.
Proof.
  intros tweets w st data blocks enc rest rs
         Hne _ Hdata Hw Hlen Hok Henc Hstream Hrs.
  assert (Hb : blocks <> []).
  { intros ->. destruct tweets; [contradiction|discriminate]. }
  rewrite utf8_encode_valid in Henc by (apply response_text_valid; exact Hok).
  inversion Henc. subst enc. clear Henc.
  assert (Hs : search marker (stream_of w st)
               = Some (utf8 (response_text blocks), rest)).
  { rewrite Hstream. apply search_after_response. exact Hok. }
  destruct (batch_marker tweets w st data _ _ Hdata Hw Hs) as [E _].
  split.
  - rewrite E. unfold response_blocks.
    rewrite (cleaned_response_text blocks Hb Hok).
    cbn [rbind str_split CRLFCRLF].
    rewrite (response_text_blocks blocks Hb Hok), rmap_map, <- Hrs.
    apply (rmap_ext_Forall _ _ _ _ rows_ok); [|exact Hok].
    intros b [Hb1 Hb2]. apply block_parse; assumption.
  - rewrite (rmap_length _ _ _ _ _ Hrs). exact Hlen.
Qed.

Lemma one_entry_per_text_in_order_witness :
  let tweets := [lit "caf" ++ [233] ++ lit " now"; lit "and"] in
  let blocks :=
    [[{| row_tokens := lit "caf" ++ [233]; row_tags := lit "N";
         row_confidence := lit "0.75" |};
      {| row_tokens := lit "now"; row_tags := lit "R";
         row_confidence := lit "0.5" |}];
     [{| row_tokens := lit "and"; row_tags := lit "&";
         row_confidence := lit "1e-3" |}]] in
  let enc :=
    lit "caf" ++ [195; 169; 9] ++ lit "N" ++ [9] ++ lit "0.75" ++ CRLF
    ++ lit "now" ++ [9] ++ lit "R" ++ [9] ++ lit "0.5" ++ CRLFCRLF
    ++ lit "and" ++ [9] ++ lit "&" ++ [9] ++ lit "1e-3" in
  let w := {| write_error := None; output := enc ++ marker ++ lit "tail";
              stream_end := TIMEOUT |} in
  let rs : list (list record) :=
    [[(lit "caf" ++ [233], lit "N", S754_finite false 6755399441055744 (-53));
      (lit "now", lit "R", S754_finite false 4503599627370496 (-53))];
     [(lit "and", lit "&", S754_finite false 4611686018427388 (-62))]] in
  fst (batch tweets w fresh) = Ret rs /\ length rs = length tweets.
Proof.
  intros tweets blocks enc w rs.
  apply (one_entry_per_text_in_order tweets w fresh
           (lit "caf" ++ [195; 169] ++ lit " now" ++ [10] ++ lit "and"
            ++ [10; 10])
           blocks enc (lit "tail") rs).
  - discriminate.
  - repeat (apply Forall_cons || apply Forall_nil);
      (split; [discriminate|split; intros H; cbn in H; intuition discriminate]).
  - reflexivity.
  - reflexivity.
  - reflexivity.
  - unfold rows_ok, row_ok, plain, valid.
    repeat (apply Forall_cons || apply Forall_nil || split);
      try discriminate; reflexivity.
  - reflexivity.
  - reflexivity.
  - reflexivity.
Defined.

(** ** Trimming octets and decoding commute *)

Lemma cons_ret_inv :
  forall c r t, cons_ret c r = Ret t -> exists t', r = Ret t' /\ t = c :: t'.
Proof.
  intros c r t H. destruct r as [t'|e]; simpl in H; [|discriminate].
  inversion H. exists t'. auto.
Qed.

(** One step of a successful decoding. *)
Lemma utf8_decode_inv :
  forall b t,
    utf8_decode b = Ret t ->
    (b = [] /\ t = [])
    \/ exists bs c b' t',
         b = bs ++ b' /\ t = c :: t' /\ unit_of bs c
         /\ utf8_decode b' = Ret t' /\ (length b' < length b)%nat.
Proof.
  intros b t H. destruct b as [|b0 t0].
  { left. inversion H. auto. }
  right. cbn [utf8_decode] in H.
  destruct (N.ltb_spec b0 0x80) as [H1|H1].
  { apply cons_ret_inv in H. destruct H as (t' & Ht & ->).
    exists [b0], b0, t0, t'. repeat split; auto.
    - intros rest. cbn [app utf8_decode]. settle_test. reflexivity. }
  destruct ((0xC2 <=? b0) && (b0 <=? 0xDF)) eqn:C2.
  { destruct t0 as [|b1 t1]; [discriminate|].
    destruct (is_cont b1) eqn:K1; [|discriminate].
    apply cons_ret_inv in H. destruct H as (t' & Ht & ->).
    exists [b0; b1], ((b0 - 0xC0) * 64 + (b1 - 0x80)), t1, t'.
    apply andb_true_iff in C2. destruct C2 as [Ca Cb].
    apply N.leb_le in Ca, Cb.
    unfold is_cont in K1. apply andb_true_iff in K1. destruct K1 as [Ka Kb].
    apply N.leb_le in Ka, Kb.
    repeat split; auto.
    - intros rest. cbn [app utf8_decode]. unfold is_cont.
      repeat settle_test. reflexivity.
    - right. split; [lia|]. split; [discriminate|].
      repeat constructor; lia.
    - simpl. lia. }
  destruct ((0xE0 <=? b0) && (b0 <=? 0xEF)) eqn:C3.
  { destruct t0 as [|b1 [|b2 t2]]; try discriminate.
    cbv zeta in H.
    destruct (is_cont b1 && is_cont b2
              && (0x800 <=? (b0 - 0xE0) * 4096 + (b1 - 0x80) * 64 + (b2 - 0x80))
              && negb (is_surrogate
                         ((b0 - 0xE0) * 4096 + (b1 - 0x80) * 64 + (b2 - 0x80))))
      eqn:K; [|discriminate].
    apply cons_ret_inv in H. destruct H as (t' & Ht & ->).
    exists [b0; b1; b2],
      ((b0 - 0xE0) * 4096 + (b1 - 0x80) * 64 + (b2 - 0x80)), t2, t'.
    repeat split; auto.
    - intros rest. cbn [app utf8_decode]. cbv zeta.
      replace (b0 <? 0x80) with false by (symmetry; apply N.ltb_ge; lia).
      rewrite C2, C3, K. reflexivity.
    - right.
      apply andb_true_iff in K. destruct K as [K _].
      apply andb_true_iff in K. destruct K as [K K3].
      apply andb_true_iff in K. destruct K as [K1 K2].
      unfold is_cont in K1, K2.
      apply andb_true_iff in K1, K2. destruct K1 as [K1 _], K2 as [K2 _].
      apply N.leb_le in K1, K2, K3.
      split; [lia|]. split; [discriminate|].
      repeat constructor; lia.
    - simpl. lia. }
  destruct ((0xF0 <=? b0) && (b0 <=? 0xF4)) eqn:C4; [|discriminate].
  destruct t0 as [|b1 [|b2 [|b3 t3]]]; try discriminate.
  cbv zeta in H.
  destruct (is_cont b1 && is_cont b2 && is_cont b3
            && (0x10000 <=? (b0 - 0xF0) * 262144 + (b1 - 0x80) * 4096
                            + (b2 - 0x80) * 64 + (b3 - 0x80))
            && ((b0 - 0xF0) * 262144 + (b1 - 0x80) * 4096
                + (b2 - 0x80) * 64 + (b3 - 0x80) <? 0x110000))
    eqn:K; [|discriminate].
  apply cons_ret_inv in H. destruct H as (t' & Ht & ->).
  exists [b0; b1; b2; b3],
    ((b0 - 0xF0) * 262144 + (b1 - 0x80) * 4096
     + (b2 - 0x80) * 64 + (b3 - 0x80)), t3, t'.
  repeat split; auto.
  - intros rest. cbn [app utf8_decode]. cbv zeta.
    replace (b0 <? 0x80) with false by (symmetry; apply N.ltb_ge; lia).
    rewrite C2, C3, C4, K. reflexivity.
  - right.
    apply andb_true_iff in K. destruct K as [K _].
    apply andb_true_iff in K. destruct K as [K K4].
    apply andb_true_iff in K. destruct K as [K K3].
    apply andb_true_iff in K. destruct K as [K1 K2].
    unfold is_cont in K1, K2, K3.
    apply andb_true_iff in K1, K2, K3.
    destruct K1 as [K1 _], K2 as [K2 _], K3 as [K3 _].
    apply N.leb_le in K1, K2, K3, K4.
    split; [lia|]. split; [discriminate|].
    repeat constructor; lia.
  - simpl. lia.
Qed.

Lemma utf8_decode_app :
  forall n b t y,
    (length b <= n)%nat ->
    utf8_decode b = Ret t ->
    utf8_decode (b ++ y) = (ty <~ utf8_decode y ;; Ret (t ++ ty))%result.
Proof.
  induction n as [|n IH]; intros b t y Hlen H;
    destruct (utf8_decode_inv b t H)
      as [[-> ->]|(bs & c & b' & t' & -> & -> & [U _] & Hd & Hl)];
    try (simpl; destruct (utf8_decode y); reflexivity).
  - simpl in Hlen. lia.
  - rewrite <- app_assoc, U, (IH b' t' y) by (lia || exact Hd).
    destruct (utf8_decode y); reflexivity.
Qed.

Lemma utf8_decode_ascii :
  forall l, Forall (fun b => b < 0x80) l -> utf8_decode l = Ret l.
Proof.
  induction l as [|b l IH]; intros H.
  - reflexivity.
  - inversion H as [|? ? Hb Hl]. subst. cbn [utf8_decode].
    apply N.ltb_lt in Hb. rewrite Hb, (IH Hl). reflexivity.
Qed.

Lemma utf8_decode_nil :
  forall b, utf8_decode b = Ret [] -> b = [].
Proof.
  intros b H.
  destruct (utf8_decode_inv b [] H) as [[-> _]|(bs & c & b' & t' & _ & E & _)].
  - reflexivity.
  - discriminate.
Qed.

Lemma isspace_ascii_high :
  forall x, 0x80 <= x -> isspace_ascii x = false.
Proof.
  intros x H. unfold isspace_ascii. repeat settle_test. settle_eq.
  reflexivity.
Qed.

Lemma isspace_ascii_low :
  forall x, isspace_ascii x = true -> x < 0x80.
Proof.
  intros x H. destruct (N.ltb_spec x 0x80) as [L|L]; [exact L|].
  rewrite (isspace_ascii_high x L) in H. discriminate.
Qed.

(** What [lstrip] and [rstrip] take away. *)
Lemma lstrip_split :
  forall ws s,
    exists pre, s = pre ++ lstrip ws s /\ Forall (fun c => ws c = true) pre.
Proof.
  intros ws. induction s as [|c s IH].
  - exists []. split; [reflexivity|constructor].
  - simpl. destruct (ws c) eqn:E.
    + destruct IH as (pre & Hs & Hp). exists (c :: pre). split.
      * simpl. f_equal. exact Hs.
      * constructor; assumption.
    + exists []. split; [reflexivity|constructor].
Qed.

Lemma rstrip_split :
  forall ws s,
    exists post, s = rstrip ws s ++ post /\ Forall (fun c => ws c = true) post.
Proof.
  intros ws s. destruct (lstrip_split ws (rev s)) as (pre & Hs & Hp).
  exists (rev pre). split.
  - unfold rstrip. rewrite <- rev_app_distr, <- Hs, rev_involutive.
    reflexivity.
  - apply Forall_rev. exact Hp.
Qed.

Lemma lstrip_snoc :
  forall ws u c,
    lstrip ws (u ++ [c])
    = match lstrip ws u with
      | [] => if ws c then [] else [c]
      | r => r ++ [c]
      end.
Proof.
  intros ws. induction u as [|a u IH]; intros c.
  - reflexivity.
  - simpl. destruct (ws a); [apply IH|reflexivity].
Qed.

Lemma rstrip_cons :
  forall ws c s,
    rstrip ws (c :: s)
    = match rstrip ws s with
      | [] => if ws c then [] else [c]
      | r => c :: r
      end.
Proof.
  intros ws c s. unfold rstrip. cbn [rev]. rewrite lstrip_snoc.
  destruct (lstrip ws (rev s)) as [|a r] eqn:E.
  - simpl. destruct (ws c); reflexivity.
  - rewrite rev_app_distr. cbn [rev app].
    destruct (rev r ++ [a]) eqn:E2; [|reflexivity].
    apply app_eq_nil in E2. destruct E2 as [_ E2]. discriminate.
Qed.

Lemma rstrip_app_keep :
  forall ws bs s,
    Forall (fun b => ws b = false) bs ->
    rstrip ws (bs ++ s) = bs ++ rstrip ws s.
Proof.
  intros ws. induction bs as [|b bs IH]; intros s H.
  - reflexivity.
  - inversion H as [|? ? Hb Hbs]. subst. cbn [app].
    rewrite rstrip_cons_keep by exact Hb. rewrite (IH s Hbs). reflexivity.
Qed.

Lemma utf8_decode_lstrip :
  forall n b t,
    (length b <= n)%nat ->
    utf8_decode b = Ret t ->
    utf8_decode (lstrip isspace_ascii b) = Ret (lstrip isspace_ascii t).
Proof.
  induction n as [|n IH]; intros b t Hlen H;
    destruct (utf8_decode_inv b t H)
      as [[-> ->]|(bs & c & b' & t' & Eb & Et & [U K] & Hd & Hl)];
    try reflexivity.
  - subst b. simpl in Hlen. lia.
  - destruct K as [[-> Hc]|(Hc & Hne & Hbs)].
    + subst b t. cbn [app lstrip]. destruct (isspace_ascii c) eqn:E.
      * apply IH; [simpl in *; lia|exact Hd].
      * exact H.
    + assert (E : lstrip isspace_ascii b = b).
      { subst b. destruct bs as [|b0 bs]; [contradiction|].
        inversion Hbs. subst. cbn [app lstrip].
        rewrite isspace_ascii_high by assumption. reflexivity. }
      rewrite E, Et. cbn [lstrip].
      rewrite (isspace_ascii_high c Hc), <- Et. exact H.
Qed.

Lemma utf8_decode_rstrip :
  forall n b t,
    (length b <= n)%nat ->
    utf8_decode b = Ret t ->
    utf8_decode (rstrip isspace_ascii b) = Ret (rstrip isspace_ascii t).
Proof.
  induction n as [|n IH]; intros b t Hlen H;
    destruct (utf8_decode_inv b t H)
      as [[-> ->]|(bs & c & b' & t' & Eb & Et & [U K] & Hd & Hl)];
    try reflexivity.
  - subst b. simpl in Hlen. lia.
  - assert (R : utf8_decode (rstrip isspace_ascii b')
                = Ret (rstrip isspace_ascii t')).
    { apply IH; [lia|exact Hd]. }
    destruct K as [[-> Hc]|(Hc & Hne & Hbs)].
    + subst b t. cbn [app]. rewrite !rstrip_cons.
      destruct (rstrip isspace_ascii b') as [|r1 r] eqn:Eb.
      * simpl in R. inversion R as [R']. 
        destruct (isspace_ascii c); [reflexivity|].
        cbn [utf8_decode]. apply N.ltb_lt in Hc. rewrite Hc. reflexivity.
      * destruct (rstrip isspace_ascii t') as [|d ds] eqn:Et.
        { apply utf8_decode_nil in R. discriminate. }
        change (c :: r1 :: r) with ([c] ++ r1 :: r).
        rewrite U, R. reflexivity.
    + subst b t.
      rewrite rstrip_app_keep.
      * rewrite U, R.
        rewrite rstrip_cons_keep by (apply isspace_ascii_high; exact Hc).
        reflexivity.
      * apply (Forall_impl _ isspace_ascii_high Hbs).
Qed.

(** Decoding the trimmed octets succeeds exactly when decoding all the
    octets does, and gives the text trimmed of the same six
    characters. *)
Lemma utf8_decode_bytes_strip :
  forall b t,
    utf8_decode (bytes_strip b) = Ret t ->
    exists t0,
      utf8_decode b = Ret t0
      /\ t = rstrip isspace_ascii (lstrip isspace_ascii t0).
Proof.
  intros b t H. unfold bytes_strip in H.
  destruct (lstrip_split isspace_ascii b) as (pre & Eb & Hpre).
  destruct (rstrip_split isspace_ascii (lstrip isspace_ascii b))
    as (post & Em & Hpost).
  assert (Dpre : utf8_decode pre = Ret pre).
  { apply utf8_decode_ascii.
    apply (Forall_impl _ isspace_ascii_low Hpre). }
  assert (Dpost : utf8_decode post = Ret post).
  { apply utf8_decode_ascii.
    apply (Forall_impl _ isspace_ascii_low Hpost). }
  assert (D : utf8_decode b = Ret (pre ++ t ++ post)).
  { rewrite Eb, Em.
    rewrite (utf8_decode_app _ pre pre _ (le_n _) Dpre).
    rewrite (utf8_decode_app _ _ t post (le_n _) H), Dpost.
    reflexivity. }
  exists (pre ++ t ++ post). split; [exact D|].
  pose proof (utf8_decode_lstrip _ b _ (le_n _) D) as L.
  pose proof (utf8_decode_rstrip _ _ _ (le_n _) L) as R.
  rewrite H in R. injection R as R. exact R.
Qed.

(** ** The claim on the cleaning of the response *)

(** C8. When [batch] returns through the marker, the bytes before the
    marker decode as UTF-8; what the code decodes is these bytes trimmed,
    which gives the decoded text trimmed of the same white space; this
    text is a sequence of pieces without the banner, separated by the
    banner, so every occurrence of the banner is dropped; what is split
    into blocks is the concatenation of the pieces, trimmed, hence a
    text that neither begins nor ends with white space; the result is
    the parse of these blocks. *)
Theorem response_decoded_trimmed_without_banner :
  forall tweets w st rs pre post,
    fst (batch tweets w st) = Ret rs ->
    search marker (stream_of w st) = Some (pre, post) ->
    exists raw text pieces,
      utf8_decode pre = Ret raw
      /\ utf8_decode (bytes_strip pre) = Ret text
      /\ text = rstrip isspace_ascii (lstrip isspace_ascii raw)
      /\ str_join banner pieces = text
      /\ Forall (absent banner) pieces
      /\ let cleaned := str_strip (concat pieces) in
         (forall c r, cleaned = c :: r -> isspace c = false)
         /\ (forall i c, cleaned = i ++ [c] -> isspace c = false)
         /\ rmap _parse_raw_result (split_go CRLFCRLF 0 [] cleaned) = Ret rs.
Proof.
  intros tweets w st rs pre post H Hs.
  destruct (batch_ret_inv tweets w st rs H) as (data & _ & _ & Hcase).
  destruct Hcase as [[Hn _]|(pre' & post' & blocks & Hs' & Hb & Hr)].
  { rewrite Hn in Hs. discriminate. }
  rewrite Hs in Hs'. inversion Hs'. subst pre' post'.
  unfold response_blocks, cleaned_response in Hb.
  destruct (utf8_decode (bytes_strip pre)) as [text|] eqn:Hd;
    simpl in Hb; [|discriminate].
  inversion Hb. subst blocks.
  destruct (utf8_decode_bytes_strip pre text Hd) as (raw & Hraw & Htext).
  exists raw, text, (split_go banner 0 [] text).
  assert (Hbanner : banner <> []) by discriminate.
  split; [exact Hraw|].
  split; [reflexivity|].
  split; [exact Htext|].
  split; [apply str_join_split; exact Hbanner|].
  split; [apply split_pieces_absent; exact Hbanner|].
  rewrite <- str_join_nil_concat. cbv zeta.
  split; [apply str_strip_starts|].
  split; [apply str_strip_ends|].
  exact Hr.
Qed.

Lemma response_decoded_trimmed_without_banner_witness :
  let tweets := [lit "hi"] in
  let reply := lit "  Detected text input format" ++ CRLF
               ++ [104; 195; 169] ++ [TAB] ++ lit "!" ++ [TAB] ++ lit "0.5"
               ++ [SP] in
  let w := {| write_error := None; output := reply ++ marker ++ lit "late";
              stream_end := TIMEOUT |} in
  let rs : list (list record) :=
    [[([104; 233], lit "!", S754_finite false 4503599627370496 (-53))]] in
  search marker (stream_of w fresh) = Some (reply, lit "late")
  /\ exists raw text pieces,
       utf8_decode reply = Ret raw
       /\ utf8_decode (bytes_strip reply) = Ret text
       /\ text = rstrip isspace_ascii (lstrip isspace_ascii raw)
       /\ str_join banner pieces = text
       /\ Forall (absent banner) pieces
       /\ let cleaned := str_strip (concat pieces) in
          (forall c r, cleaned = c :: r -> isspace c = false)
          /\ (forall i c, cleaned = i ++ [c] -> isspace c = false)
          /\ rmap _parse_raw_result (split_go CRLFCRLF 0 [] cleaned)
             = Ret rs.
Proof.
  intros tweets reply w rs. split; [reflexivity|].
  apply (response_decoded_trimmed_without_banner
           tweets w fresh rs reply (lit "late")); reflexivity.
Defined.

(** Dropping the occurrences of the banner can bring its two halves
    together: the text that is split into blocks may hold the banner
    again. *)
Example banner_can_reappear :
  let raw := lit "Detected text Detected text input formatinput format" in
  cleaned_response raw = Ret banner.
Proof. reflexivity. Qed.

(** * Further properties of the code *)

(** ** Which exceptions can come out *)

Lemma utf8_encode_char_raises :
  forall c e, utf8_encode_char c = Raise e -> e = UnicodeEncodeError.
Proof.
  intros c e H. unfold utf8_encode_char in H.
  destruct (c <? 0x80); [discriminate|].
  destruct (c <? 0x800); [discriminate|].
  destruct (is_surrogate c); [inversion H; reflexivity|].
  destruct (c <? 0x10000); [discriminate|].
  destruct (c <? 0x110000); [discriminate|inversion H; reflexivity].
Qed.

Lemma utf8_encode_raises :
  forall s e, utf8_encode s = Raise e -> e = UnicodeEncodeError.
Proof.
  induction s as [|c s IH]; intros e H; simpl in H.
  - discriminate.
  - destruct (utf8_encode_char c) as [bs|e'] eqn:E.
    + destruct (utf8_encode s) as [r|e'']; [discriminate|].
      inversion H. subst. apply IH. reflexivity.
    + inversion H. subst. apply (utf8_encode_char_raises c e E).
Qed.

Lemma cons_ret_raises :
  forall c r e, cons_ret c r = Raise e -> r = Raise e.
Proof. intros c r e H. destruct r; simpl in H; [discriminate|exact H]. Qed.

Lemma utf8_decode_raises :
  forall n b e,
    (length b <= n)%nat ->
    utf8_decode b = Raise e -> e = UnicodeDecodeError.
Proof.
  induction n as [|n IH]; intros b e Hlen H.
  - destruct b; [discriminate|simpl in Hlen; lia].
  - destruct b as [|b0 t0]; [discriminate|]. cbn [utf8_decode] in H.
    simpl in Hlen.
    destruct (b0 <? 0x80).
    { apply cons_ret_raises in H. apply (IH t0 e); [lia|exact H]. }
    destruct ((0xC2 <=? b0) && (b0 <=? 0xDF)).
    { destruct t0 as [|b1 t1]; [inversion H; reflexivity|].
      destruct (is_cont b1); [|inversion H; reflexivity].
      apply cons_ret_raises in H. apply (IH t1 e); [simpl in Hlen; lia|exact H]. }
    destruct ((0xE0 <=? b0) && (b0 <=? 0xEF)).
    { destruct t0 as [|b1 [|b2 t2]]; try (inversion H; reflexivity).
      cbv zeta in H.
      match type of H with
      | (if ?c then _ else _) = _ => destruct c
      end; [|inversion H; reflexivity].
      apply cons_ret_raises in H. apply (IH t2 e); [simpl in Hlen; lia|exact H]. }
    destruct ((0xF0 <=? b0) && (b0 <=? 0xF4)); [|inversion H; reflexivity].
    destruct t0 as [|b1 [|b2 [|b3 t3]]]; try (inversion H; reflexivity).
    cbv zeta in H.
    match type of H with
    | (if ?c then _ else _) = _ => destruct c
    end; [|inversion H; reflexivity].
    apply cons_ret_raises in H. apply (IH t3 e); [simpl in Hlen; lia|exact H].
Qed.

Lemma rmap_raises :
  forall A B (f : A -> result B) l e,
    rmap f l = Raise e -> exists a, In a l /\ f a = Raise e.
Proof.
  induction l as [|a l IH]; intros e H; simpl in H.
  - discriminate.
  - destruct (f a) as [b|e'] eqn:Fa.
    + destruct (rmap f l) as [bs|e''] eqn:Fl; [discriminate|].
      inversion H. subst. destruct (IH e eq_refl) as (x & Hx & Fx).
      exists x. split; [right; exact Hx|exact Fx].
    + inversion H. subst. exists a. split; [left; reflexivity|exact Fa].
Qed.

Lemma row_record_raises :
  forall l e, shaped l = true -> row_record l = Raise e -> e = ValueError.
Proof.
  intros l e S H. destruct (shaped_three_parts l S) as (a & b & c & P).
  rewrite (row_record_parts l a b c P) in H.
  destruct (py_float c) as [f|e'] eqn:F; simpl in H; [discriminate|].
  inversion H. subst. apply (py_float_raises_ValueError c e F).
Qed.

Lemma parse_raw_result_raises :
  forall block e, _parse_raw_result block = Raise e -> e = ValueError.
Proof.
  intros block e H. rewrite parse_raw_result_rmap in H.
  destruct (rmap_raises _ _ _ _ _ H) as (l & Hl & Fl).
  apply (row_record_raises l e); [|exact Fl].
  unfold shaped_rows in Hl. apply filter_In in Hl. apply Hl.
Qed.

(** X1. The parser of a block raises nothing but [ValueError]: the three
    indexings [parts[0]], [parts[1]], [parts[2]] never fail, since a row
    with exactly two tabs splits into exactly three parts; the only
    failure is [float] on the third part. *)
Theorem parser_raises_only_ValueError :
  forall block e,
    _parse_raw_result block = Raise e ->
    e = ValueError
    /\ exists l a b c,
         In l (shaped_rows block)
         /\ split_go [TAB] 0 [] l = [a; b; c]
         /\ py_float c = Raise ValueError.
Proof.
  intros block e H. rewrite parse_raw_result_rmap in H.
  destruct (rmap_raises _ _ _ _ _ H) as (l & Hl & Fl).
  assert (S : shaped l = true).
  { unfold shaped_rows in Hl. apply filter_In in Hl. apply Hl. }
  pose proof (row_record_raises l e S Fl) as ->.
  split; [reflexivity|].
  destruct (shaped_three_parts l S) as (a & b & c & P).
  exists l, a, b, c. repeat split; try assumption.
  rewrite (row_record_parts l a b c P) in Fl.
  destruct (py_float c) as [f|e'] eqn:F; simpl in Fl; [discriminate|].
  rewrite (py_float_raises_ValueError c e' F). reflexivity.
Qed.

Lemma parser_raises_only_ValueError_witness :
  let block := lit "a" ++ [TAB] ++ lit "N" ++ [TAB] ++ lit "high" in
  ValueError = ValueError
  /\ exists l a b c,
       In l (shaped_rows block)
       /\ split_go [TAB] 0 [] l = [a; b; c]
       /\ py_float c = Raise ValueError.
Proof.
  intros block.
  apply (parser_raises_only_ValueError block ValueError). reflexivity.
Defined.

(** X2. An exception that comes out of [batch] is the encoding error
    of the request, the error of the write, or, after the marker was
    seen, a decoding error of the response or the [ValueError] of a
    confidence; the exception that ends a wait without marker never
    comes out. *)
Theorem batch_raises_only :
  forall tweets w st e,
    fst (batch tweets w st) = Raise e ->
    (e = UnicodeEncodeError
     /\ utf8_encode (str_join [LF] (map clean_tweet tweets) ++ [LF; LF])
        = Raise e)
    \/ write_error w = Some e
    \/ (write_error w = None
        /\ search marker (stream_of w st) <> None
        /\ (e = UnicodeDecodeError \/ e = ValueError)).
Proof.
  intros tweets w st e H.
  destruct (request_of tweets) as [data|e'] eqn:He.
  2:{ rewrite (batch_encode_error tweets w st e' He) in H.
      inversion H. subst. left. split; [|exact He].
      apply (utf8_encode_raises _ _ He). }
  destruct (write_error w) as [e'|] eqn:Hw.
  { destruct (batch_write_error tweets w st data e' He Hw) as [H1 _].
    rewrite H1 in H. inversion H. right. left. reflexivity. }
  right. right. split; [reflexivity|].
  destruct (search marker (stream_of w st)) as [[pre post]|] eqn:Hs.
  - split; [discriminate|].
    destruct (batch_marker tweets w st data pre post He Hw Hs) as [H1 _].
    rewrite H1 in H. unfold response_blocks, cleaned_response in H.
    destruct (utf8_decode (bytes_strip pre)) as [raw|e'] eqn:Hd; simpl in H.
    + right. destruct (rmap_raises _ _ _ _ _ H) as (b & _ & Hb).
      apply (parse_raw_result_raises b e Hb).
    + left. inversion H. subst.
      apply (utf8_decode_raises _ _ _ (le_n _) Hd).
  - destruct (batch_no_marker tweets w st data He Hw Hs) as [H1 _].
    rewrite H1 in H. discriminate.
Qed.

Lemma batch_raises_only_witness :
  let tweets := [lit "hi"] in
  let w := {| write_error := None; output := [255] ++ marker;
              stream_end := TIMEOUT |} in
  fst (batch tweets w fresh) = Raise UnicodeDecodeError
  /\ ((UnicodeDecodeError = UnicodeEncodeError
       /\ utf8_encode (str_join [LF] (map clean_tweet tweets) ++ [LF; LF])
          = Raise UnicodeDecodeError)
      \/ write_error w = Some UnicodeDecodeError
      \/ (write_error w = None
          /\ search marker (stream_of w fresh) <> None
          /\ (UnicodeDecodeError = UnicodeDecodeError
              \/ UnicodeDecodeError = ValueError))).
Proof.
  intros tweets w. split; [reflexivity|].
  apply (batch_raises_only tweets w fresh UnicodeDecodeError). reflexivity.
Defined.

(** ** Texts that cannot be encoded *)

Lemma utf8_encode_char_ret_valid :
  forall c bs, utf8_encode_char c = Ret bs -> valid c.
Proof.
  intros c bs H. unfold utf8_encode_char in H. unfold valid, is_surrogate.
  destruct (N.ltb_spec c 0x80).
  { split; [repeat settle_test; reflexivity|lia]. }
  destruct (N.ltb_spec c 0x800).
  { split; [repeat settle_test; reflexivity|lia]. }
  destruct (is_surrogate c) eqn:S; [discriminate|].
  destruct (N.ltb_spec c 0x10000).
  { split; [exact S|lia]. }
  destruct (N.ltb_spec c 0x110000); [|discriminate].
  split; [exact S|lia].
Qed.

Lemma utf8_encode_ret_valid :
  forall s d, utf8_encode s = Ret d -> Forall valid s.
Proof.
  induction s as [|c s IH]; intros d H.
  - constructor.
  - simpl in H. destruct (utf8_encode_char c) as [bs|] eqn:E; [|discriminate].
    destruct (utf8_encode s) as [r|] eqn:Es; [|discriminate].
    constructor.
    + apply (utf8_encode_char_ret_valid c bs E).
    + apply (IH r eq_refl).
Qed.

Lemma valid_cr_lf_to_space :
  forall c, valid c -> valid (cr_lf_to_space c).
Proof.
  intros c H. unfold cr_lf_to_space.
  destruct ((c =? LF) || (c =? CR)); [|exact H].
  split; reflexivity.
Qed.

Lemma surrogate_cr_lf_to_space :
  forall c, is_surrogate c = true -> cr_lf_to_space c = c.
Proof.
  intros c H. unfold cr_lf_to_space.
  destruct (N.eqb_spec c LF) as [->|_]; [discriminate|].
  destruct (N.eqb_spec c CR) as [->|_]; [discriminate|].
  reflexivity.
Qed.

Lemma In_str_join :
  forall sep l x c, In x l -> In c x -> In c (str_join sep l).
Proof.
  intros sep. induction l as [|y l IH]; intros x c Hx Hc.
  - contradiction.
  - destruct l as [|z l].
    + destruct Hx as [->|[]]. exact Hc.
    + rewrite str_join_cons by discriminate. apply in_or_app.
      destruct Hx as [->|Hx]; [left; exact Hc|].
      right. apply in_or_app. right. apply (IH x c Hx Hc).
Qed.

Lemma message_valid :
  forall tweets,
    Forall (Forall valid) tweets ->
    Forall valid (str_join [LF] (map clean_tweet tweets) ++ [LF; LF]).
Proof.
  intros tweets H. apply Forall_app. split.
  - apply Forall_str_join.
    + repeat constructor.
    + apply Forall_map. apply (Forall_impl _ (P := Forall valid)); [|exact H].
      intros tw Htw. rewrite clean_tweet_map. apply Forall_map.
      apply (Forall_impl _ valid_cr_lf_to_space Htw).
  - repeat constructor.
Qed.

(** X3. A text with a lone surrogate makes [batch] raise
    [UnicodeEncodeError] before anything is written: the session is left
    exactly as it was, whatever the other texts are. *)
Theorem lone_surrogate_stops_batch :
  forall tweets w st tw c,
    In tw tweets -> In c tw -> is_surrogate c = true ->
    batch tweets w st = (Raise UnicodeEncodeError, st).
Proof.
  intros tweets w st tw c Htw Hc Hs.
  destruct (request_of tweets) as [data|e] eqn:He.
  - exfalso. unfold request_of in He.
    apply utf8_encode_ret_valid in He. rewrite Forall_forall in He.
    assert (V : valid c).
    { apply He. apply in_or_app. left.
      apply (In_str_join [LF] _ (clean_tweet tw) c).
      - apply in_map. exact Htw.
      - rewrite clean_tweet_map. rewrite <- (surrogate_cr_lf_to_space c Hs).
        apply in_map. exact Hc. }
    destruct V as [V _]. rewrite V in Hs. discriminate.
  - rewrite (utf8_encode_raises _ _ He) in He.
    apply (batch_encode_error tweets w st _ He).
Qed.

Lemma lone_surrogate_stops_batch_witness :
  let tweets := [lit "fine"; lit "bad" ++ [0xDC00] ++ lit "text"] in
  let w := {| write_error := None; output := marker; stream_end := EOF |} in
  batch tweets w fresh = (Raise UnicodeEncodeError, fresh).
Proof.
  intros tweets w.
  apply (lone_surrogate_stops_batch tweets w fresh
           (lit "bad" ++ [0xDC00] ++ lit "text") 0xDC00).
  - right. left. reflexivity.
  - cbn. tauto.
  - reflexivity.
Defined.

(** X4. When every code point of every text can be encoded (no lone
    surrogate) and the write goes through, the request always goes out:
    [batch] writes exactly one chunk, the encoding of the cleaned texts
    joined by line feeds and followed by two line feeds, and does not
    raise [UnicodeEncodeError]. *)
Theorem well_formed_texts_are_sent :
  forall tweets w st,
    Forall (Forall valid) tweets ->
    write_error w = None ->
    sent (proc (self (snd (batch tweets w st))))
    = sent (proc (self st))
      ++ [utf8 (str_join [LF] (map clean_tweet tweets) ++ [LF; LF])]
    /\ fst (batch tweets w st) <> Raise UnicodeEncodeError.
Proof.
  intros tweets w st H Hw.
  assert (He : request_of tweets
               = Ret (utf8 (str_join [LF] (map clean_tweet tweets)
                            ++ [LF; LF]))).
  { unfold request_of. apply utf8_encode_valid. apply message_valid. exact H. }
  split.
  - apply (batch_sent tweets w st _ He Hw).
  - intros E.
    destruct (search marker (stream_of w st)) as [[pre post]|] eqn:Hs.
    + destruct (batch_marker tweets w st _ pre post He Hw Hs) as [H1 _].
      rewrite H1 in E. unfold response_blocks, cleaned_response in E.
      destruct (utf8_decode (bytes_strip pre)) as [raw|e'] eqn:Hd; simpl in E.
      * destruct (rmap_raises _ _ _ _ _ E) as (b & _ & Hb).
        apply parse_raw_result_raises in Hb. discriminate.
      * inversion E. subst.
        apply (utf8_decode_raises _ _ _ (le_n _)) in Hd. discriminate.
    + destruct (batch_no_marker tweets w st _ He Hw Hs) as [H1 _].
      rewrite H1 in E. discriminate.
Qed.

Lemma well_formed_texts_are_sent_witness :
  let tweets := [[0x1F600; 32; 233]; lit "b"] in
  let w := {| write_error := None; output := []; stream_end := TIMEOUT |} in
  sent (proc (self (snd (batch tweets w fresh))))
  = [[0xF0; 0x9F; 0x98; 0x80; 32; 0xC3; 0xA9; 10; 98; 10; 10]]
  /\ fst (batch tweets w fresh) <> Raise UnicodeEncodeError.
Proof.
  intros tweets w.
  apply (well_formed_texts_are_sent tweets w fresh).
  - unfold valid. repeat (apply Forall_cons || apply Forall_nil || split);
      reflexivity.
  - reflexivity.
Defined.

(** ** What cleaning achieves *)

Lemma cr_lf_to_space_not_cr_lf :
  forall c, cr_lf_to_space c <> CR /\ cr_lf_to_space c <> LF.
Proof.
  intros c. unfold cr_lf_to_space.
  destruct (N.eqb_spec c LF) as [->|H1]; simpl.
  - split; discriminate.
  - destruct (N.eqb_spec c CR) as [->|H2].
    + split; discriminate.
    + split; assumption.
Qed.

Lemma clean_tweet_no_cr_lf :
  forall tw, ~ In CR (clean_tweet tw) /\ ~ In LF (clean_tweet tw).
Proof.
  intros tw. rewrite clean_tweet_map.
  split; intros H; apply in_map_iff in H; destruct H as (c & E & _);
    destruct (cr_lf_to_space_not_cr_lf c); contradiction.
Qed.

Lemma clean_tweet_id :
  forall tw, ~ In CR tw -> ~ In LF tw -> clean_tweet tw = tw.
Proof.
  intros tw Hcr Hlf. rewrite clean_tweet_map.
  rewrite <- (map_id tw) at 2. apply map_ext_in.
  intros c Hc. unfold cr_lf_to_space.
  destruct (N.eqb_spec c LF) as [->|_]; [contradiction|].
  destruct (N.eqb_spec c CR) as [->|_]; [contradiction|].
  reflexivity.
Qed.

(** X5. Cleaning keeps the length of a text, leaves neither carriage
    return nor line feed in it, changes nothing in a text that has
    none, and is therefore idempotent. *)
Theorem cleaning_facts :
  forall tw,
    length (clean_tweet tw) = length tw
    /\ ~ In CR (clean_tweet tw)
    /\ ~ In LF (clean_tweet tw)
    /\ (~ In CR tw -> ~ In LF tw -> clean_tweet tw = tw)
    /\ clean_tweet (clean_tweet tw) = clean_tweet tw.
Proof.
  intros tw. destruct (clean_tweet_no_cr_lf tw) as [Hcr Hlf].
  repeat split; try assumption.
  - rewrite clean_tweet_map. apply length_map.
  - apply clean_tweet_id.
  - apply clean_tweet_id; assumption.
Qed.

Lemma cleaning_facts_witness :
  let tw := lit "no break here" in
  length (clean_tweet tw) = length tw
  /\ ~ In CR (clean_tweet tw)
  /\ ~ In LF (clean_tweet tw)
  /\ clean_tweet tw = tw
  /\ clean_tweet (clean_tweet tw) = clean_tweet tw.
Proof.
  intros tw.
  destruct (cleaning_facts tw) as (H1 & H2 & H3 & H4 & H5).
  split; [exact H1|]. split; [exact H2|]. split; [exact H3|].
  split; [|exact H5].
  apply H4; intros H; cbn in H; intuition discriminate.
Defined.

(** ** The request, line by line *)

Lemma split_lines :
  forall encs,
    encs <> [] -> Forall (fun e => ~ In LF e) encs ->
    split_go [LF] 0 [] (str_join [LF] encs ++ [LF; LF]) = encs ++ [[]; []].
Proof.
  induction encs as [|e l IH]; intros Hne H.
  - contradiction.
  - inversion H as [|? ? He Hl]. subst. destruct l as [|e' l].
    + cbn [str_join app].
      change (e ++ [LF; LF]) with (e ++ [LF] ++ [LF]).
      rewrite split_go_piece;
        [reflexivity|discriminate|apply clean_before_head; exact He].
    + rewrite str_join_cons by discriminate.
      rewrite <- !app_assoc.
      rewrite split_go_piece;
        [|discriminate|apply clean_before_head; exact He].
      cbn [app]. f_equal. apply IH; [discriminate|exact Hl].
Qed.

Lemma Forall2_map_l :
  forall A B C (f : A -> B) (R : B -> C -> Prop) l l',
    Forall2 R (map f l) l' -> Forall2 (fun a c => R (f a) c) l l'.
Proof.
  induction l as [|a l IH]; intros l' H; inversion H; subst.
  - constructor.
  - constructor; [assumption|]. apply IH. assumption.
Qed.

Lemma encoded_clean_tweet_no_cr_lf :
  forall tw e,
    utf8_encode (clean_tweet tw) = Ret e -> ~ In CR e /\ ~ In LF e.
Proof.
  intros tw e H.
  pose proof (utf8_encode_ret_valid _ _ H) as V.
  rewrite (utf8_encode_valid _ V) in H. inversion H. subst e.
  destruct (clean_tweet_no_cr_lf tw) as [Hcr Hlf].
  split; intros Hin; [apply Hcr|apply Hlf];
    (apply utf8_ascii; [exact Hin|unfold CR, LF; lia]).
Qed.

(** X6. For a batch of at least one text, the request holds exactly one
    line per text: cut at the line feeds, the chunk gives back the
    encodings of the cleaned texts, in order, followed by two empty
    pieces (the empty line that ends the batch), and it holds no
    carriage return. *)
Theorem request_has_one_line_per_text :
  forall tweets w st data,
    tweets <> [] ->
    utf8_encode (str_join [LF] (map clean_tweet tweets) ++ [LF; LF])
    = Ret data ->
    write_error w = None ->
    sent (proc (self (snd (batch tweets w st))))
    = sent (proc (self st)) ++ [data]
    /\ ~ In CR data
    /\ exists encs,
         Forall2 (fun tw e => utf8_encode (clean_tweet tw) = Ret e)
                 tweets encs
         /\ split_go [LF] 0 [] data = encs ++ [[]; []].
Proof.
  intros tweets w st data Hne H Hw.
  split; [apply (batch_sent tweets w st data H Hw)|].
  apply utf8_encode_app_inv in H. destruct H as (x & y & Hx & Hy & ->).
  inversion Hy. subst y.
  destruct (utf8_encode_join [LF] [LF] _ x eq_refl Hx) as (encs & HF & ->).
  apply Forall2_map_l in HF.
  assert (Hclean : Forall (fun e => ~ In CR e /\ ~ In LF e) encs).
  { clear Hx Hne. induction HF as [|tw e l l' He _ IH]; constructor.
    - apply (encoded_clean_tweet_no_cr_lf tw e He).
    - exact IH. }
  split.
  - assert (F : Forall (fun b => b <> CR) (str_join [LF] encs ++ [LF; LF])).
    { apply Forall_app. split.
      - apply Forall_str_join.
        + repeat constructor; discriminate.
        + apply (Forall_impl _ (P := fun e => ~ In CR e /\ ~ In LF e));
            [|exact Hclean].
          intros e [He _]. apply Forall_forall. intros b Hb ->.
          contradiction.
      - repeat constructor; discriminate. }
    rewrite Forall_forall in F. intros Hin. apply (F CR Hin). reflexivity.
  - exists encs. split; [exact HF|].
    apply split_lines.
    + intros ->. inversion HF. subst. contradiction.
    + apply (Forall_impl _ (P := fun e => ~ In CR e /\ ~ In LF e));
        [|exact Hclean].
      tauto.
Qed.

Lemma request_has_one_line_per_text_witness :
  let tweets := [lit "one" ++ [LF] ++ lit "line"; []; lit "two"] in
  let w := {| write_error := None; output := []; stream_end := TIMEOUT |} in
  let data := lit "one line" ++ [LF] ++ [LF] ++ lit "two" ++ [LF; LF] in
  sent (proc (self (snd (batch tweets w fresh)))) = [data]
  /\ ~ In CR data
  /\ exists encs,
       Forall2 (fun tw e => utf8_encode (clean_tweet tw) = Ret e)
               tweets encs
       /\ split_go [LF] 0 [] data = encs ++ [[]; []].
Proof.
  intros tweets w data.
  apply (request_has_one_line_per_text tweets w fresh data).
  - discriminate.
  - reflexivity.
  - reflexivity.
Defined.

(** ** The state a call of [batch] leaves *)

Lemma batch_marker_state :
  forall tweets w st data pre post,
    request_of tweets = Ret data ->
    write_error w = None ->
    search marker (stream_of w st) = Some (pre, post) ->
    buffer (proc (self (snd (batch tweets w st)))) = post
    /\ killed (proc (self (snd (batch tweets w st)))) = killed (proc (self st))
    /\ cmd (self (snd (batch tweets w st))) = cmd (self st).
Proof.
  intros tweets w st data pre post H Hw Hs. unfold request_of in H.
  unfold stream_of in Hs. run_batch.
  rewrite H, Hw. simpl. rewrite Hs. simpl.
  destruct (utf8_decode (bytes_strip pre)); simpl; auto.
Qed.

Lemma batch_no_marker_state :
  forall tweets w st data,
    request_of tweets = Ret data ->
    write_error w = None ->
    search marker (stream_of w st) = None ->
    buffer (proc (self (snd (batch tweets w st))))
    = match stream_end w with EOF => [] | _ => stream_of w st end
    /\ killed (proc (self (snd (batch tweets w st)))) = killed (proc (self st))
    /\ cmd (self (snd (batch tweets w st))) = cmd (self st).
Proof.
  intros tweets w st data H Hw Hs. unfold request_of in H.
  unfold stream_of in *. run_batch.
  rewrite H, Hw. simpl. rewrite Hs. simpl. auto.
Qed.

Lemma request_of_valid :
  forall tweets,
    Forall (Forall valid) tweets ->
    request_of tweets
    = Ret (utf8 (str_join [LF] (map clean_tweet tweets) ++ [LF; LF])).
Proof.
  intros tweets H. unfold request_of. apply utf8_encode_valid.
  apply message_valid. exact H.
Qed.

(** ** A response behind a harmless prefix *)

Lemma banner_no_cr : ~ In CR banner.
Proof. cbn. intuition discriminate. Qed.

Lemma utf8_rows_ok :
  forall blocks,
    Forall rows_ok blocks ->
    Forall (fun b => b <> [] /\ Forall solid b)
           (map (map (fun r => utf8 (row_text r))) blocks).
Proof.
  intros blocks H.
  apply Forall_map. apply (Forall_impl _ (P := rows_ok)); [|exact H].
  intros b [Hb1 Hb2]. split.
  - destruct b; [contradiction|discriminate].
  - apply Forall_map. apply (Forall_impl _ (P := row_ok)); [|exact Hb2].
    intros r Hr. apply utf8_solid.
    + apply row_text_solid. exact Hr.
    + apply row_text_valid. exact Hr.
Qed.

Lemma utf8_response_head :
  forall blocks,
    blocks <> [] -> Forall rows_ok blocks ->
    exists d t, utf8 (response_text blocks) = d :: t /\ d <> CR.
Proof.
  intros blocks Hne H. rewrite utf8_response_text.
  apply join_blocks_head.
  - destruct blocks; [contradiction|discriminate].
  - apply utf8_rows_ok. exact H.
Qed.

Lemma clean_harmless :
  forall h d t,
    In h harmless_prefixes -> d <> CR ->
    clean_before marker h (d :: t) = true.
Proof.
  intros h d t Hin Hd. apply N.eqb_neq in Hd. rewrite N.eqb_sym in Hd.
  unfold harmless_prefixes in Hin.
  destruct Hin as [<-|[<-|[<-|[<-|[]]]]].
  - reflexivity.
  - unfold CRLF, marker. cbn [clean_before app starts_with].
    rewrite Hd. reflexivity.
  - rewrite clean_before_app.
    unfold marker at 1. rewrite clean_before_head by apply banner_no_cr.
    unfold CRLF, marker. cbn [clean_before app starts_with andb].
    rewrite Hd. reflexivity.
  - rewrite !clean_before_app.
    unfold marker at 2. rewrite clean_before_head by apply banner_no_cr.
    unfold CRLF, marker. unfold banner at 1.
    cbn [clean_before app starts_with andb].
    rewrite Hd. reflexivity.
Qed.

Lemma search_after_prefix :
  forall h blocks rest,
    In h harmless_prefixes ->
    blocks <> [] -> Forall rows_ok blocks ->
    search marker (h ++ utf8 (response_text blocks) ++ marker ++ rest)
    = Some (h ++ utf8 (response_text blocks), rest).
Proof.
  intros h blocks rest Hin Hne H.
  rewrite app_assoc. apply search_clean. rewrite clean_before_app.
  apply andb_true_iff. split.
  - destruct (utf8_response_head blocks Hne H) as (d & t & E & Hd).
    rewrite E. apply (clean_harmless h d _ Hin Hd).
  - rewrite utf8_response_text. apply clean_blocks.
    apply utf8_rows_ok. exact H.
Qed.

Lemma cleaned_response_after_banner :
  forall blocks,
    blocks <> [] -> Forall rows_ok blocks ->
    cleaned_response ((banner ++ CRLF) ++ utf8 (response_text blocks))
    = Ret (response_text blocks).
Proof.
  intros blocks Hne H. unfold cleaned_response, bytes_strip.
  rewrite lstrip_id by (apply starts_ok_app; reflexivity).
  rewrite rstrip_id
    by (apply ends_ok_app, utf8_ends, response_text_ends; assumption).
  rewrite (utf8_decode_app _ (banner ++ CRLF) (banner ++ CRLF) _ (le_n _))
    by reflexivity.
  rewrite utf8_decode_utf8 by (apply response_text_valid; exact H).
  cbn [rbind].
  assert (E : forall x, str_split banner x = Ret (split_go banner 0 [] x))
    by reflexivity.
  rewrite E. cbn [rbind]. rewrite <- app_assoc.
  rewrite split_go_match by discriminate.
  rewrite split_go_last.
  - cbn [rev str_join app]. unfold str_strip.
    change (lstrip isspace (CRLF ++ response_text blocks))
      with (lstrip isspace (response_text blocks)).
    rewrite lstrip_id.
    + rewrite rstrip_id; [reflexivity|].
      apply (ends_ok_impl plain _ _ plain_not_space).
      apply response_text_ends; assumption.
    + apply (starts_ok_impl plain _ _ plain_not_space).
      apply response_text_starts; assumption.
  - apply (clean_before_foreign _ _ _ SP).
    + unfold SP. cbn. tauto.
    + rewrite app_nil_r. intros Hin. apply in_app_or in Hin.
      destruct Hin as [Hin|Hin].
      * cbn in Hin. intuition discriminate.
      * apply (response_text_no_blank blocks H Hin).
Qed.

Lemma cleaned_response_after_prefix :
  forall h blocks,
    In h harmless_prefixes ->
    blocks <> [] -> Forall rows_ok blocks ->
    cleaned_response (h ++ utf8 (response_text blocks))
    = Ret (response_text blocks).
Proof.
  intros h blocks Hin Hne H. unfold harmless_prefixes in Hin.
  destruct Hin as [<-|[<-|[<-|[<-|[]]]]].
  - apply cleaned_response_text; assumption.
  - change (cleaned_response (CRLF ++ utf8 (response_text blocks)))
      with (cleaned_response (utf8 (response_text blocks))).
    apply cleaned_response_text; assumption.
  - apply cleaned_response_after_banner; assumption.
  - change (cleaned_response
              ((CRLF ++ banner ++ CRLF) ++ utf8 (response_text blocks)))
      with (cleaned_response
              ((banner ++ CRLF) ++ utf8 (response_text blocks))).
    apply cleaned_response_after_banner; assumption.
Qed.

Lemma parse_response :
  forall h blocks,
    In h harmless_prefixes ->
    blocks <> [] -> Forall rows_ok blocks ->
    (bs <~ response_blocks (h ++ utf8 (response_text blocks)) ;;
     rmap _parse_raw_result bs)%result
    = rmap (rmap row_value) blocks.
Proof.
  intros h blocks Hin Hne H. unfold response_blocks.
  rewrite (cleaned_response_after_prefix h blocks Hin Hne H).
  cbn [rbind str_split CRLFCRLF].
  rewrite (response_text_blocks blocks Hne H), rmap_map.
  apply (rmap_ext_Forall _ _ _ _ rows_ok); [|exact H].
  intros b [Hb1 Hb2]. apply block_parse; assumption.
Qed.

(** X7. The end of the readiness line, a banner line, or both, in front
    of the response do not change what [batch] returns: they are trimmed
    away or cut out with the banner, and the records of the blocks come
    out as if the response stood alone. *)
Theorem harmless_prefix_is_ignored :
  forall tweets w st h blocks rest rs,
    Forall (Forall valid) tweets ->
    write_error w = None ->
    In h harmless_prefixes ->
    blocks <> [] -> Forall rows_ok blocks ->
    stream_of w st = h ++ utf8 (response_text blocks) ++ marker ++ rest ->
    rmap (rmap row_value) blocks = Ret rs ->
    fst (batch tweets w st) = Ret rs.
Proof.
  intros tweets w st h blocks rest rs Hv Hw Hin Hne Hok Hstream Hrs.
  pose proof (request_of_valid tweets Hv) as He.
  assert (Hs : search marker (stream_of w st)
               = Some (h ++ utf8 (response_text blocks), rest)).
  { rewrite Hstream. apply search_after_prefix; assumption. }
  destruct (batch_marker tweets w st _ _ _ He Hw Hs) as [E _].
  rewrite E, (parse_response h blocks Hin Hne Hok). exact Hrs.
Qed.

Lemma harmless_prefix_is_ignored_witness :
  let tweets := [lit "so it goes"] in
  let blocks :=
    [[{| row_tokens := lit "so"; row_tags := lit "R";
         row_confidence := lit "0.5" |}]] in
  let w := {| write_error := None;
              output := CRLF ++ lit "Detected text input format" ++ CRLF
                        ++ lit "so" ++ [TAB] ++ lit "R" ++ [TAB] ++ lit "0.5"
                        ++ marker;
              stream_end := TIMEOUT |} in
  fst (batch tweets w fresh)
  = Ret [[(lit "so", lit "R", S754_finite false 4503599627370496 (-53))]].
Proof.
  intros tweets blocks w.
  apply (harmless_prefix_is_ignored tweets w fresh
           (CRLF ++ banner ++ CRLF) blocks [] _).
  - unfold valid. repeat (apply Forall_cons || apply Forall_nil || split);
      reflexivity.
  - reflexivity.
  - cbn. tauto.
  - discriminate.
  - unfold rows_ok, row_ok, plain, valid.
    repeat (apply Forall_cons || apply Forall_nil || split);
      try discriminate; reflexivity.
  - reflexivity.
  - reflexivity.
Defined.

(** ** Successive calls on one child *)

(** X8. A response that comes too late is not lost but misplaced: when
    the wait of one call ends on a timeout, what was read stays
    buffered, and the next call, whatever its texts, returns the records
    of the response completed meanwhile. *)
Theorem late_response_goes_to_next_call :
  forall tweets1 tweets2 w1 w2 st blocks rest rs,
    Forall (Forall valid) tweets1 -> Forall (Forall valid) tweets2 ->
    write_error w1 = None -> write_error w2 = None ->
    search marker (stream_of w1 st) = None ->
    stream_end w1 <> EOF ->
    blocks <> [] -> Forall rows_ok blocks ->
    stream_of w1 st ++ output w2
    = utf8 (response_text blocks) ++ marker ++ rest ->
    rmap (rmap row_value) blocks = Ret rs ->
    fst (batch tweets1 w1 st) = Ret []
    /\ fst (batch tweets2 w2 (snd (batch tweets1 w1 st))) = Ret rs.
Proof.
  intros tweets1 tweets2 w1 w2 st blocks rest rs
         Hv1 Hv2 Hw1 Hw2 Hs1 Hend Hne Hok Hstream Hrs.
  pose proof (request_of_valid tweets1 Hv1) as He1.
  pose proof (request_of_valid tweets2 Hv2) as He2.
  destruct (batch_no_marker tweets1 w1 st _ He1 Hw1 Hs1) as [R1 _].
  destruct (batch_no_marker_state tweets1 w1 st _ He1 Hw1 Hs1) as [B1 _].
  split; [exact R1|].
  set (st1 := snd (batch tweets1 w1 st)) in *.
  assert (Hs2 : search marker (stream_of w2 st1)
                = Some (utf8 (response_text blocks), rest)).
  { unfold stream_of at 1. rewrite B1.
    replace (match stream_end w1 with EOF => [] | _ => stream_of w1 st end)
      with (stream_of w1 st) by (destruct (stream_end w1); congruence).
    rewrite Hstream.
    apply (search_after_prefix [] blocks rest); [left; reflexivity| |];
      assumption. }
  destruct (batch_marker tweets2 w2 st1 _ _ _ He2 Hw2 Hs2) as [E _].
  rewrite E.
  apply (eq_trans (parse_response [] blocks (or_introl eq_refl) Hne Hok)).
  exact Hrs.
Qed.

Lemma late_response_goes_to_next_call_witness :
  let first := [lit "slow"] in
  let second := [lit "quick"] in
  let blocks :=
    [[{| row_tokens := lit "slow"; row_tags := lit "A";
         row_confidence := lit "0.5" |}]] in
  let w1 := {| write_error := None;
               output := lit "slow" ++ [TAB] ++ lit "A";
               stream_end := TIMEOUT |} in
  let w2 := {| write_error := None;
               output := [TAB] ++ lit "0.5" ++ marker;
               stream_end := TIMEOUT |} in
  fst (batch first w1 fresh) = Ret []
  /\ fst (batch second w2 (snd (batch first w1 fresh)))
     = Ret [[(lit "slow", lit "A",
              S754_finite false 4503599627370496 (-53))]].
Proof.
  intros first second blocks w1 w2.
  apply (late_response_goes_to_next_call first second w1 w2 fresh
           blocks [] _).
  - unfold valid. repeat (apply Forall_cons || apply Forall_nil || split);
      reflexivity.
  - unfold valid. repeat (apply Forall_cons || apply Forall_nil || split);
      reflexivity.
  - reflexivity.
  - reflexivity.
  - reflexivity.
  - discriminate.
  - discriminate.
  - unfold rows_ok, row_ok, plain, valid.
    repeat (apply Forall_cons || apply Forall_nil || split);
      try discriminate; reflexivity.
  - reflexivity.
  - reflexivity.
Defined.

(** X9. Successive calls take the responses one marker at a time, in
    the order of the stream: what follows the marker of one call is kept
    and stands at the head of what the next call reads. *)
Theorem responses_are_served_in_order :
  forall tweets1 tweets2 w1 w2 st blocks1 blocks2 left rest rs1 rs2,
    Forall (Forall valid) tweets1 -> Forall (Forall valid) tweets2 ->
    write_error w1 = None -> write_error w2 = None ->
    blocks1 <> [] -> Forall rows_ok blocks1 ->
    blocks2 <> [] -> Forall rows_ok blocks2 ->
    stream_of w1 st = utf8 (response_text blocks1) ++ marker ++ left ->
    left ++ output w2 = utf8 (response_text blocks2) ++ marker ++ rest ->
    rmap (rmap row_value) blocks1 = Ret rs1 ->
    rmap (rmap row_value) blocks2 = Ret rs2 ->
    fst (batch tweets1 w1 st) = Ret rs1
    /\ fst (batch tweets2 w2 (snd (batch tweets1 w1 st))) = Ret rs2
    /\ buffer (proc (self (snd (batch tweets2 w2
                                  (snd (batch tweets1 w1 st)))))) = rest.
Proof.
  intros tweets1 tweets2 w1 w2 st blocks1 blocks2 left rest rs1 rs2
         Hv1 Hv2 Hw1 Hw2 Hne1 Hok1 Hne2 Hok2 Hst1 Hst2 Hrs1 Hrs2.
  pose proof (request_of_valid tweets1 Hv1) as He1.
  pose proof (request_of_valid tweets2 Hv2) as He2.
  assert (Hs1 : search marker (stream_of w1 st)
                = Some (utf8 (response_text blocks1), left)).
  { rewrite Hst1.
    apply (search_after_prefix [] blocks1 left); [left; reflexivity| |];
      assumption. }
  destruct (batch_marker tweets1 w1 st _ _ _ He1 Hw1 Hs1) as [E1 _].
  destruct (batch_marker_state tweets1 w1 st _ _ _ He1 Hw1 Hs1) as [B1 _].
  set (st1 := snd (batch tweets1 w1 st)) in *.
  assert (Hs2 : search marker (stream_of w2 st1)
                = Some (utf8 (response_text blocks2), rest)).
  { unfold stream_of at 1. rewrite B1, Hst2.
    apply (search_after_prefix [] blocks2 rest); [left; reflexivity| |];
      assumption. }
  destruct (batch_marker tweets2 w2 st1 _ _ _ He2 Hw2 Hs2) as [E2 _].
  destruct (batch_marker_state tweets2 w2 st1 _ _ _ He2 Hw2 Hs2) as [B2 _].
  split; [|split].
  - rewrite E1.
    apply (eq_trans (parse_response [] blocks1 (or_introl eq_refl) Hne1 Hok1)).
    exact Hrs1.
  - rewrite E2.
    apply (eq_trans (parse_response [] blocks2 (or_introl eq_refl) Hne2 Hok2)).
    exact Hrs2.
  - exact B2.
Qed.

Lemma responses_are_served_in_order_witness :
  let first := [lit "a"] in
  let second := [lit "b"] in
  let row t := {| row_tokens := lit t; row_tags := lit "G";
                  row_confidence := lit "0.5" |} in
  let answer t := lit t ++ [TAB] ++ lit "G" ++ [TAB] ++ lit "0.5" in
  let w1 := {| write_error := None;
               output := answer "a"%string ++ marker
                         ++ answer "b"%string ++ marker ++ lit "more";
               stream_end := TIMEOUT |} in
  let w2 := {| write_error := None; output := []; stream_end := TIMEOUT |} in
  let half := S754_finite false 4503599627370496 (-53) in
  fst (batch first w1 fresh) = Ret [[(lit "a", lit "G", half)]]
  /\ fst (batch second w2 (snd (batch first w1 fresh)))
     = Ret [[(lit "b", lit "G", half)]]
  /\ buffer (proc (self (snd (batch second w2
                                (snd (batch first w1 fresh))))))
     = lit "more".
Proof.
  intros first second row answer w1 w2 half.
  apply (responses_are_served_in_order first second w1 w2 fresh
           [[row "a"%string]] [[row "b"%string]]
           (answer "b"%string ++ marker ++ lit "more") (lit "more") _ _).
  - unfold valid. repeat (apply Forall_cons || apply Forall_nil || split);
      reflexivity.
  - unfold valid. repeat (apply Forall_cons || apply Forall_nil || split);
      reflexivity.
  - reflexivity.
  - reflexivity.
  - discriminate.
  - unfold rows_ok, row_ok, plain, valid.
    repeat (apply Forall_cons || apply Forall_nil || split);
      try discriminate; reflexivity.
  - discriminate.
  - unfold rows_ok, row_ok, plain, valid.
    repeat (apply Forall_cons || apply Forall_nil || split);
      try discriminate; reflexivity.
  - reflexivity.
  - reflexivity.
  - reflexivity.
  - reflexivity.
Defined.

(** ** Characters the cleaning lets through *)

Lemma count_enc1 :
  forall d c, c < 0x80 ->
    count_occ N.eq_dec (enc1 d) c = count_occ N.eq_dec [d] c.
Proof.
  intros d c Hc. destruct (N.eq_dec d c) as [->|Hd].
  - unfold enc1, utf8_encode_char.
    replace (c <? 0x80) with true by (symmetry; apply N.ltb_lt; exact Hc).
    reflexivity.
  - rewrite (proj1 (count_occ_not_In N.eq_dec (enc1 d) c)).
    + symmetry. apply count_occ_not_In. intros [H|[]]. contradiction.
    + intros Hin. apply Hd. symmetry. apply (enc1_ascii d c Hin Hc).
Qed.

Lemma count_utf8 :
  forall s c, c < 0x80 ->
    count_occ N.eq_dec (utf8 s) c = count_occ N.eq_dec s c.
Proof.
  intros s c Hc. induction s as [|d s IH].
  - reflexivity.
  - change (utf8 (d :: s)) with (enc1 d ++ utf8 s).
    change (d :: s) with ([d] ++ s).
    rewrite !count_occ_app, IH, (count_enc1 d c Hc). reflexivity.
Qed.

Lemma count_str_join :
  forall sep l c, ~ In c sep ->
    count_occ N.eq_dec (str_join sep l) c = count_occ N.eq_dec (concat l) c.
Proof.
  intros sep l c Hsep. induction l as [|x l IH].
  - reflexivity.
  - destruct l as [|y l].
    + cbn [str_join concat]. rewrite app_nil_r. reflexivity.
    + rewrite str_join_cons by discriminate.
      cbn [concat] in *. rewrite !count_occ_app, IH.
      rewrite (proj1 (count_occ_not_In N.eq_dec sep c) Hsep).
      rewrite count_occ_app. reflexivity.
Qed.

Lemma count_clean_tweet :
  forall tw c, c <> CR -> c <> LF -> c <> SP ->
    count_occ N.eq_dec (clean_tweet tw) c = count_occ N.eq_dec tw c.
Proof.
  intros tw c H1 H2 H3. rewrite clean_tweet_map.
  induction tw as [|d tw IH]; [reflexivity|].
  cbn [map count_occ]. rewrite IH.
  unfold cr_lf_to_space.
  destruct (N.eqb_spec d LF) as [->|E1].
  { cbn [orb]. destruct (N.eq_dec SP c); [congruence|].
    destruct (N.eq_dec LF c); [congruence|reflexivity]. }
  destruct (N.eqb_spec d CR) as [->|E2].
  { cbn [orb]. destruct (N.eq_dec SP c); [congruence|].
    destruct (N.eq_dec CR c); [congruence|reflexivity]. }
  reflexivity.
Qed.

Lemma count_clean_tweets :
  forall tweets c, c <> CR -> c <> LF -> c <> SP ->
    count_occ N.eq_dec (concat (map clean_tweet tweets)) c
    = count_occ N.eq_dec (concat tweets) c.
Proof.
  intros tweets c H1 H2 H3. induction tweets as [|tw l IH]; [reflexivity|].
  cbn [map concat]. rewrite !count_occ_app, IH.
  rewrite (count_clean_tweet tw c H1 H2 H3). reflexivity.
Qed.

(** X10. The cleaning takes carriage returns and line feeds out of the
    texts and nothing else: any other character below 128, a control
    character such as ETX (3), EOT (4) or ESC (27) included, is in the
    chunk written to the child as it is.  The blank apart, which the
    cleaning adds, the chunk holds the octet exactly as many times as
    the texts hold the character, hence at least once for a text that
    holds it. *)
Theorem control_characters_are_written :
  forall tweets w st c,
    Forall (Forall valid) tweets ->
    write_error w = None ->
    c < 0x80 -> c <> CR -> c <> LF -> c <> SP ->
    exists data,
      sent (proc (self (snd (batch tweets w st))))
      = sent (proc (self st)) ++ [data]
      /\ count_occ N.eq_dec data c = count_occ N.eq_dec (concat tweets) c
      /\ forall tw, In tw tweets -> In c tw -> In c data.
Proof.
  intros tweets w st c Hv Hw Hc H1 H2 H3.
  pose proof (request_of_valid tweets Hv) as Hreq.
  eexists. split; [apply (batch_sent tweets w st _ Hreq Hw)|].
  assert (Hcount :
    count_occ N.eq_dec
      (utf8 (str_join [LF] (map clean_tweet tweets) ++ [LF; LF])) c
    = count_occ N.eq_dec (concat tweets) c).
  { rewrite (count_utf8 _ c Hc), count_occ_app.
    rewrite count_str_join by (intros [H|[]]; congruence).
    rewrite (count_clean_tweets tweets c H1 H2 H3).
    rewrite (proj1 (count_occ_not_In N.eq_dec [LF; LF] c)).
    - lia.
    - intros [H|[H|[]]]; congruence. }
  split; [exact Hcount|].
  intros tw Htw Hin.
  apply (count_occ_In N.eq_dec). rewrite Hcount.
  apply (count_occ_In N.eq_dec). apply in_concat.
  exists tw. split; assumption.
Qed.

Lemma control_characters_are_written_witness :
  let tweets := [lit "stop" ++ [3] ++ lit "here"; [4; 27] ++ lit "x" ++ [3]] in
  let w := {| write_error := None; output := []; stream_end := TIMEOUT |} in
  sent (proc (self (snd (batch tweets w fresh))))
  = [lit "stop" ++ [3] ++ lit "here" ++ [LF; 4; 27] ++ lit "x" ++ [3; LF; LF]]
  /\ exists data,
       sent (proc (self (snd (batch tweets w fresh))))
       = sent (proc (self fresh)) ++ [data]
       /\ count_occ N.eq_dec data 3 = count_occ N.eq_dec (concat tweets) 3
       /\ forall tw, In tw tweets -> In 3 tw -> In 3 data.
Proof.
  intros tweets w. split; [reflexivity|].
  apply (control_characters_are_written tweets w fresh 3).
  - unfold valid. repeat (apply Forall_cons || apply Forall_nil || split);
      reflexivity.
  - reflexivity.
  - reflexivity.
  - discriminate.
  - discriminate.
  - discriminate.
Defined.

(** ** Start-up *)

Example readiness_pattern_text : regex_text readiness_pattern = Some readiness.
Proof. reflexivity. Qed.

Lemma split_char_app :
  forall c a b cur,
    split_go [c] 0 cur (a ++ c :: b)
    = split_go [c] 0 cur a ++ split_go [c] 0 [] b.
Proof.
  intros c. induction a as [|x a IH]; intros b cur.
  - cbn [app split_go starts_with length pred].
    rewrite N.eqb_refl. reflexivity.
  - cbn [app split_go starts_with length pred]. rewrite andb_true_r.
    destruct (c =? x).
    + rewrite (IH b []). reflexivity.
    + apply IH.
Qed.

Lemma split_char_word :
  forall c word,
    ~ In c word -> split_go [c] 0 [] word = [word].
Proof.
  intros c word H. apply split_go_last. apply clean_before_head. exact H.
Qed.

(** X11. The command [__init__] builds is made of the words [java], the
    options, [-jar], the path of the jar, [--output-format] and [conll],
    separated by single blanks: cut at the blanks it gives these words
    back, the options and the path being themselves cut at their own
    blanks (a path with a blank is more than one word). *)
Theorem command_words :
  forall java_opts jarpath launch w st,
    split_go [SP] 0 []
      (cmd (self (snd (__init__ java_opts jarpath launch w st))))
    = [lit "java"] ++ split_go [SP] 0 [] java_opts
      ++ [lit "-jar"] ++ split_go [SP] 0 [] jarpath
      ++ [lit "--output-format"; lit "conll"].
Proof.
  intros java_opts jarpath launch w st.
  assert (C : cmd (self (snd (__init__ java_opts jarpath launch w st)))
              = lit "java" ++ SP :: java_opts ++ SP :: lit "-jar"
                ++ SP :: jarpath ++ SP :: lit "--output-format"
                ++ SP :: lit "conll").
  { unfold __init__, on_proc. destruct launch; [reflexivity|].
    cbn [proc self].
    destruct (spawn_expect readiness w spawned). reflexivity. }
  rewrite C. clear C.
  rewrite (split_char_app SP (lit "java")).
  rewrite (split_char_app SP java_opts).
  rewrite (split_char_app SP (lit "-jar")).
  rewrite (split_char_app SP jarpath).
  rewrite (split_char_app SP (lit "--output-format")).
  rewrite !split_char_word
    by (cbn; intuition discriminate).
  reflexivity.
Qed.

Lemma init_ready :
  forall java_opts jarpath w st pre post,
    search readiness (output w) = Some (pre, post) ->
    fst (__init__ java_opts jarpath None w st) = Ret 0
    /\ proc (self (snd (__init__ java_opts jarpath None w st)))
       = {| sent := []; buffer := post; before := pre; killed := [] |}
    /\ console (snd (__init__ java_opts jarpath None w st)) = console st.
Proof.
  intros java_opts jarpath w st pre post H.
  unfold __init__, on_proc, spawn_expect. simpl. rewrite H. simpl. auto.
Qed.

(** X12. The first call after start-up.  When the readiness text shows
    up, [__init__] returns with nothing written yet, and what the child
    printed after that text is kept for the first call of [batch]; if it
    is the end of the readiness line, a banner line, or both, the first
    call returns the records of its response and has written its
    request, the first chunk the child receives. *)
Theorem first_batch_after_start :
  forall java_opts jarpath w0 st pre0 post0 tweets w h blocks rest rs,
    search readiness (output w0) = Some (pre0, post0) ->
    Forall (Forall valid) tweets ->
    write_error w = None ->
    In h harmless_prefixes ->
    blocks <> [] -> Forall rows_ok blocks ->
    post0 ++ output w = h ++ utf8 (response_text blocks) ++ marker ++ rest ->
    rmap (rmap row_value) blocks = Ret rs ->
    let st0 := snd (__init__ java_opts jarpath None w0 st) in
    fst (__init__ java_opts jarpath None w0 st) = Ret 0
    /\ sent (proc (self st0)) = []
    /\ before (proc (self st0)) = pre0
    /\ fst (batch tweets w st0) = Ret rs
    /\ sent (proc (self (snd (batch tweets w st0))))
       = [utf8 (str_join [LF] (map clean_tweet tweets) ++ [LF; LF])].
Proof.
  intros java_opts jarpath w0 st pre0 post0 tweets w h blocks rest rs
         Hready Hv Hw Hin Hne Hok Hstream Hrs.
  destruct (init_ready java_opts jarpath w0 st pre0 post0 Hready)
    as (R & P & _).
  cbv zeta. set (st0 := snd (__init__ java_opts jarpath None w0 st)) in *.
  pose proof (request_of_valid tweets Hv) as He.
  assert (Hs : search marker (stream_of w st0)
               = Some (h ++ utf8 (response_text blocks), rest)).
  { unfold stream_of. rewrite P. cbn [buffer]. rewrite Hstream.
    apply search_after_prefix; assumption. }
  destruct (batch_marker tweets w st0 _ _ _ He Hw Hs) as [E _].
  split; [exact R|].
  split; [rewrite P; reflexivity|].
  split; [rewrite P; reflexivity|].
  split.
  - rewrite E, (parse_response h blocks Hin Hne Hok). exact Hrs.
  - rewrite (batch_sent tweets w st0 _ He Hw), P. reflexivity.
Qed.

Lemma first_batch_after_start_witness :
  let w0 := {| write_error := None;
               output := lit "Listening on stdin for input.  (-h for help)"
                         ++ CRLF;
               stream_end := TIMEOUT |} in
  let tweets := [lit "hi"] in
  let blocks :=
    [[{| row_tokens := lit "hi"; row_tags := lit "!";
         row_confidence := lit "0.5" |}]] in
  let w := {| write_error := None;
              output := lit "Detected text input format" ++ CRLF
                        ++ lit "hi" ++ [TAB] ++ lit "!" ++ [TAB] ++ lit "0.5"
                        ++ marker;
              stream_end := TIMEOUT |} in
  let st0 := snd (__init__ default_java_opts default_jarpath None w0 fresh) in
  fst (__init__ default_java_opts default_jarpath None w0 fresh) = Ret 0
  /\ sent (proc (self st0)) = []
  /\ before (proc (self st0)) = []
  /\ fst (batch tweets w st0)
     = Ret [[(lit "hi", lit "!", S754_finite false 4503599627370496 (-53))]]
  /\ sent (proc (self (snd (batch tweets w st0))))
     = [utf8 (str_join [LF] (map clean_tweet tweets) ++ [LF; LF])].
Proof.
  intros w0 tweets blocks w.
  apply (first_batch_after_start default_java_opts default_jarpath w0 fresh
           [] CRLF tweets w (CRLF ++ banner ++ CRLF) blocks [] _).
  - reflexivity.
  - unfold valid. repeat (apply Forall_cons || apply Forall_nil || split);
      reflexivity.
  - reflexivity.
  - cbn. tauto.
  - discriminate.
  - unfold rows_ok, row_ok, plain, valid.
    repeat (apply Forall_cons || apply Forall_nil || split);
      try discriminate; reflexivity.
  - reflexivity.
  - reflexivity.
Defined.

(** ** What the parser lets through *)

Lemma rmap_Forall_ret :
  forall A B (f : A -> result B) l bs,
    rmap f l = Ret bs ->
    Forall (fun b => exists a, In a l /\ f a = Ret b) bs.
Proof.
  induction l as [|a l IH]; intros bs H; simpl in H.
  - inversion H. constructor.
  - destruct (f a) as [b|] eqn:Fa; [|discriminate].
    destruct (rmap f l) as [bs'|] eqn:Fl; [|discriminate].
    inversion H. subst. constructor.
    + exists a. split; [left; reflexivity|exact Fa].
    + apply (Forall_impl _ (P := fun b => exists a, In a l /\ f a = Ret b)).
      * intros b' (x & Hx & Fx). exists x. split; [right; exact Hx|exact Fx].
      * apply IH. reflexivity.
Qed.

Lemma absent_char :
  forall c s, absent [c] s -> ~ In c s.
Proof.
  unfold absent. induction s as [|x s IH]; intros H Hin.
  - contradiction.
  - rewrite search_unfold in H. cbn [starts_with] in H.
    rewrite andb_true_r in H.
    destruct (N.eqb_spec c x) as [->|Hn]; [discriminate|].
    destruct (search [c] s) as [[pre post]|] eqn:E; [discriminate|].
    destruct Hin as [Hx|Hin]; [congruence|].
    apply (IH eq_refl Hin).
Qed.

Lemma row_record_fields :
  forall l r,
    shaped l = true ->
    (forall c t, l = c :: t -> isspace c = false) ->
    row_record l = Ret r ->
    fst (fst r) <> []
    /\ (forall c t, fst (fst r) = c :: t -> isspace c = false)
    /\ ~ In TAB (fst (fst r))
    /\ ~ In TAB (snd (fst r)).
Proof.
  intros l r S Hstart H.
  destruct (shaped_three_parts l S) as (a & b & c & P).
  rewrite (row_record_parts l a b c P) in H.
  destruct (py_float c) as [f|]; simpl in H; [|discriminate].
  inversion H. subst r. cbn [fst snd].
  assert (T : [TAB] <> []) by discriminate.
  pose proof (split_pieces_absent [TAB] l T) as F. rewrite P in F.
  inversion F as [|? ? Fa F']. subst. inversion F' as [|? ? Fb _]. subst.
  pose proof (str_join_split [TAB] l T) as J. rewrite P in J.
  cbn [str_join] in J.
  assert (Ha : forall c0 t, a = c0 :: t -> isspace c0 = false).
  { intros c0 t ->. apply (Hstart c0 (t ++ [TAB] ++ b ++ [TAB] ++ c)).
    rewrite <- J. reflexivity. }
  repeat split.
  - intros ->. cbn [app] in J.
    pose proof (Hstart TAB _ (eq_sym J)). discriminate.
  - exact Ha.
  - apply absent_char. exact Fa.
  - apply absent_char. exact Fb.
Qed.

(** X14. Every record the parser returns has a [tokens] field that is
    not empty, does not begin with white space and holds no tab, and a
    [tags] field without tab; and there are at most as many records as
    the block has rows. *)
Theorem records_are_well_formed :
  forall block recs,
    _parse_raw_result block = Ret recs ->
    Forall (fun r =>
              fst (fst r) <> []
              /\ (forall c t, fst (fst r) = c :: t -> isspace c = false)
              /\ ~ In TAB (fst (fst r))
              /\ ~ In TAB (snd (fst r))) recs
    /\ (length recs <= length (split_go CRLF 0 [] block))%nat.
Proof.
  intros block recs H. rewrite parse_raw_result_rmap in H. split.
  - apply (Forall_impl _ (P := fun r => exists l, In l (shaped_rows block)
                                         /\ row_record l = Ret r)).
    + intros r (l & Hl & Hr). unfold shaped_rows in Hl.
      apply filter_In in Hl. destruct Hl as [Hl S].
      apply in_map_iff in Hl. destruct Hl as (x & <- & _).
      apply (row_record_fields (str_strip x) r S); [|exact Hr].
      intros c t E. apply (str_strip_starts x c t E).
    + apply (rmap_Forall_ret _ _ _ _ _ H).
  - rewrite (rmap_length _ _ _ _ _ H). unfold shaped_rows.
    eapply Nat.le_trans; [apply filter_length_le|].
    rewrite length_map. apply le_n.
Qed.

Lemma records_are_well_formed_witness :
  let block := lit "  you" ++ [TAB] ++ lit "O" ++ [TAB] ++ lit "0.5 " ++ CRLF
               ++ lit "header" ++ CRLF in
  let recs : list record :=
    [(lit "you", lit "O", S754_finite false 4503599627370496 (-53))] in
  Forall (fun r =>
            fst (fst r) <> []
            /\ (forall c t, fst (fst r) = c :: t -> isspace c = false)
            /\ ~ In TAB (fst (fst r))
            /\ ~ In TAB (snd (fst r))) recs
  /\ (length recs <= length (split_go CRLF 0 [] block))%nat.
Proof.
  intros block recs.
  apply (records_are_well_formed block recs). reflexivity.
Defined.

(** ** Blanks around a row *)

Lemma lstrip_blank_prefix :
  forall ws a s,
    Forall (fun c => ws c = true) a -> lstrip ws (a ++ s) = lstrip ws s.
Proof.
  intros ws. induction a as [|c a IH]; intros s H.
  - reflexivity.
  - inversion H as [|? ? Hc Ha]. subst. cbn [app lstrip]. rewrite Hc.
    apply IH. exact Ha.
Qed.

Lemma rstrip_blank_suffix :
  forall ws s b,
    Forall (fun c => ws c = true) b -> rstrip ws (s ++ b) = rstrip ws s.
Proof.
  intros ws s b H. unfold rstrip. rewrite rev_app_distr.
  rewrite lstrip_blank_prefix by (apply Forall_rev; exact H).
  reflexivity.
Qed.

Lemma lstrip_app_cons :
  forall ws l c t b,
    lstrip ws l = c :: t -> lstrip ws (l ++ b) = (c :: t) ++ b.
Proof.
  intros ws. induction l as [|x l IH]; intros c t b H.
  - discriminate.
  - cbn [app lstrip] in *. destruct (ws x).
    + apply IH. exact H.
    + inversion H. reflexivity.
Qed.

Lemma strip_padded :
  forall ws a l b,
    Forall (fun c => ws c = true) a -> Forall (fun c => ws c = true) b ->
    rstrip ws (lstrip ws (a ++ l ++ b)) = rstrip ws (lstrip ws l).
Proof.
  intros ws a l b Ha Hb. rewrite lstrip_blank_prefix by exact Ha.
  destruct (lstrip ws l) as [|c t] eqn:E.
  - assert (L : lstrip ws (l ++ b) = []).
    { destruct (lstrip_split ws l) as (pre & Hl & Hpre).
      rewrite E, app_nil_r in Hl. subst pre.
      rewrite lstrip_blank_prefix by exact Hpre.
      destruct (lstrip ws b) as [|x r] eqn:Eb; [reflexivity|].
      exfalso.
      assert (X : ws x = false) by (eapply lstrip_starts; exact Eb).
      destruct (lstrip_split ws b) as (pre & Hb' & _).
      rewrite Eb in Hb'. rewrite Forall_forall in Hb.
      rewrite (Hb x) in X; [discriminate|].
      rewrite Hb'. apply in_or_app. right. left. reflexivity. }
    rewrite L. reflexivity.
  - rewrite (lstrip_app_cons ws l c t b E).
    apply rstrip_blank_suffix. exact Hb.
Qed.

Lemma split_rows_no_cr :
  forall rows,
    rows <> [] -> Forall (fun r => ~ In CR r) rows ->
    split_go CRLF 0 [] (str_join CRLF rows) = rows.
Proof.
  induction rows as [|x l IH]; intros Hne H.
  - contradiction.
  - inversion H as [|? ? Hx Hl]. subst. destruct l as [|y l].
    + apply split_go_last. apply clean_before_head. exact Hx.
    + rewrite str_join_cons by discriminate.
      rewrite split_go_piece.
      * f_equal. apply IH; [discriminate|exact Hl].
      * discriminate.
      * apply clean_before_head. exact Hx.
Qed.

(** X15. White space around a row is ignored: a block whose rows carry
    blanks or tabs before and after gives the same result, records or
    exception, as the block of the bare rows. *)
Theorem padding_around_rows_is_ignored :
  forall (rows : list (list N * str * list N)),
    rows <> [] ->
    Forall (fun x =>
              let '(a, l, b) := x in
              Forall (fun c => c = SP \/ c = TAB) a
              /\ Forall (fun c => c = SP \/ c = TAB) b
              /\ ~ In CR l) rows ->
    _parse_raw_result
      (str_join CRLF (map (fun x => let '(a, l, b) := x in a ++ l ++ b) rows))
    = _parse_raw_result
        (str_join CRLF (map (fun x => let '(a, l, b) := x in l) rows)).
Proof.
  intros rows Hne H.
  assert (W : forall p, Forall (fun c => c = SP \/ c = TAB) p ->
                Forall (fun c => isspace c = true) p /\ ~ In CR p).
  { intros p Hp. split.
    - apply (Forall_impl _ (P := fun c => c = SP \/ c = TAB)); [|exact Hp].
      intros c [->| ->]; reflexivity.
    - rewrite Forall_forall in Hp. intros Hin.
      destruct (Hp CR Hin); discriminate. }
  assert (Hm : forall A (f : list N * str * list N -> A), map f rows <> []).
  { intros A f. destruct rows; [contradiction|discriminate]. }
  assert (S1 : split_go CRLF 0 []
                 (str_join CRLF
                    (map (fun x => let '(a, l, b) := x in a ++ l ++ b) rows))
               = map (fun x => let '(a, l, b) := x in a ++ l ++ b) rows).
  { apply split_rows_no_cr; [apply Hm|].
    apply Forall_map. eapply Forall_impl; [|exact H].
    intros [[a l] b] (Ha & Hb & Hl) Hin.
    apply in_app_or in Hin. destruct Hin as [Hin|Hin].
    - apply (proj2 (W a Ha) Hin).
    - apply in_app_or in Hin. destruct Hin as [Hin|Hin]; [contradiction|].
      apply (proj2 (W b Hb) Hin). }
  assert (S2 : split_go CRLF 0 []
                 (str_join CRLF
                    (map (fun x => let '(a, l, b) := x in l) rows))
               = map (fun x => let '(a, l, b) := x in l) rows).
  { apply split_rows_no_cr; [apply Hm|].
    apply Forall_map. eapply Forall_impl; [|exact H].
    intros [[a l] b] (Ha & Hb & Hl). exact Hl. }
  unfold _parse_raw_result. cbn [str_split CRLF rbind].
  rewrite S1, S2, !parse_rows_rmap. f_equal. f_equal. rewrite !map_map.
  apply map_ext_in. intros [[a l] b] Hin.
  rewrite Forall_forall in H. specialize (H _ Hin). cbn in H.
  destruct H as (Ha & Hb & _).
  apply strip_padded; [apply (W a Ha)|apply (W b Hb)].
Qed.

Lemma padding_around_rows_is_ignored_witness :
  let bare1 := lit "you" ++ [TAB] ++ lit "O" ++ [TAB] ++ lit "0.5" in
  let bare2 := lit "are" ++ [TAB] ++ lit "V" ++ [TAB] ++ lit "0.25" in
  _parse_raw_result
    (lit "  " ++ bare1 ++ lit " " ++ CRLF ++ [TAB] ++ bare2 ++ [TAB; SP])
  = _parse_raw_result (bare1 ++ CRLF ++ bare2).
Proof.
  intros bare1 bare2.
  apply (padding_around_rows_is_ignored
           [(lit "  ", bare1, lit " "); ([TAB], bare2, [TAB; SP])]).
  - discriminate.
  - repeat (apply Forall_cons || apply Forall_nil); cbn;
      (split; [|split]);
      try (repeat (apply Forall_cons || apply Forall_nil); auto);
      intuition discriminate.
Defined.

(** X16. A row whose first or last field is empty is dropped without a
    word, although it holds two tabs: trimming takes the tab at its edge
    away, one tab is left, and the row is skipped; in particular [float]
    is not called on an empty confidence. *)
Theorem rows_with_empty_edge_field_are_dropped :
  forall block rows1 rows2 f1 f2,
    f1 <> [] -> Forall plain f1 -> f2 <> [] -> Forall plain f2 ->
    split_go CRLF 0 [] block = rows1 ++ ([TAB] ++ f1 ++ [TAB] ++ f2) :: rows2
    \/ split_go CRLF 0 [] block
       = rows1 ++ (f1 ++ [TAB] ++ f2 ++ [TAB]) :: rows2 ->
    _parse_raw_result block = parse_rows (rows1 ++ rows2).
Proof.
  intros block rows1 rows2 f1 f2 Hn1 H1 Hn2 H2 Hsplit.
  set (core := f1 ++ [TAB] ++ f2).
  assert (Tab : Forall (fun c => isspace c = true) [TAB])
    by (repeat constructor).
  assert (Score : str_strip core = core).
  { unfold str_strip, core. rewrite lstrip_id.
    - apply rstrip_id. repeat apply ends_ok_app.
      apply (ends_ok_impl plain _ _ plain_not_space).
      apply ends_ok_Forall; assumption.
    - apply starts_ok_app.
      apply (starts_ok_impl plain _ _ plain_not_space).
      apply starts_ok_Forall; assumption. }
  assert (Sh : shaped core = false).
  { unfold shaped. apply andb_false_iff. right. apply Nat.eqb_neq.
    cbn [str_count].
    pose proof (split_go_length [TAB] core 0 []) as L. unfold core in L.
    rewrite split_go_piece in L;
      [|discriminate|apply clean_before_head; apply plain_not_in; exact H1].
    rewrite split_go_last in L;
      [|apply clean_before_head; apply plain_not_in; exact H2].
    cbn [length] in L. unfold core. lia. }
  assert (Skip : forall line,
             str_strip line = core ->
             split_go CRLF 0 [] block = rows1 ++ line :: rows2 ->
             _parse_raw_result block = parse_rows (rows1 ++ rows2)).
  { intros line Hl Hs.
    rewrite parse_raw_result_rmap,
      (shaped_rows_split block rows1 line rows2 Hs), Hl, Sh.
    rewrite parse_rows_rmap, map_app, filter_app. reflexivity. }
  assert (E1 : str_strip ([TAB] ++ f1 ++ [TAB] ++ f2) = core).
  { rewrite <- Score. unfold str_strip.
    replace ([TAB] ++ f1 ++ [TAB] ++ f2) with ([TAB] ++ core ++ [])
      by (unfold core; rewrite app_nil_r; reflexivity).
    apply strip_padded; [exact Tab|constructor]. }
  assert (E2 : str_strip (f1 ++ [TAB] ++ f2 ++ [TAB]) = core).
  { rewrite <- Score. unfold str_strip.
    replace (f1 ++ [TAB] ++ f2 ++ [TAB]) with ([] ++ core ++ [TAB])
      by (unfold core; cbn [app]; rewrite <- !app_assoc; reflexivity).
    apply strip_padded; [constructor|exact Tab]. }
  destruct Hsplit as [Hs|Hs].
  - apply (Skip _ E1 Hs).
  - apply (Skip _ E2 Hs).
Qed.

Lemma rows_with_empty_edge_field_are_dropped_witness :
  let good := lit "x" ++ [TAB] ++ lit "N" ++ [TAB] ++ lit "0.5" in
  let block := good ++ CRLF ++ lit "y" ++ [TAB] ++ lit "N" ++ [TAB] in
  _parse_raw_result block = parse_rows ([good] ++ [])
  /\ _parse_raw_result block
     = Ret [(lit "x", lit "N", S754_finite false 4503599627370496 (-53))].
Proof.
  intros good block. split; [|reflexivity].
  apply (rows_with_empty_edge_field_are_dropped block [good] []
           (lit "y") (lit "N")).
  - discriminate.
  - unfold plain, valid.
    repeat (apply Forall_cons || apply Forall_nil || split); reflexivity.
  - discriminate.
  - unfold plain, valid.
    repeat (apply Forall_cons || apply Forall_nil || split); reflexivity.
  - right. reflexivity.
Defined.

(** ** An empty block inside a response *)

Lemma str_join_app :
  forall sep l1 l2,
    l1 <> [] -> l2 <> [] ->
    str_join sep (l1 ++ l2) = str_join sep l1 ++ sep ++ str_join sep l2.
Proof.
  intros sep. induction l1 as [|x l1 IH]; intros l2 H1 H2.
  - contradiction.
  - destruct l1 as [|y l1].
    + cbn [app]. apply str_join_cons. exact H2.
    + cbn [app]. rewrite str_join_cons by discriminate.
      rewrite (str_join_cons sep x (y :: l1)) by discriminate.
      change (y :: l1 ++ l2) with ((y :: l1) ++ l2).
      rewrite IH by (discriminate || exact H2).
      rewrite <- !app_assoc. reflexivity.
Qed.

Lemma response_with_empty_block :
  forall blocks1 blocks2,
    blocks1 <> [] -> blocks2 <> [] ->
    utf8 (response_text (blocks1 ++ [] :: blocks2))
    = utf8 (response_text blocks1) ++ marker
      ++ CRLF ++ utf8 (response_text blocks2).
Proof.
  intros blocks1 blocks2 H1 H2. unfold response_text.
  rewrite map_app. cbn [map].
  rewrite str_join_app;
    [|destruct blocks1; [contradiction|discriminate]|discriminate].
  rewrite str_join_cons by (destruct blocks2; [contradiction|discriminate]).
  rewrite !utf8_app. reflexivity.
Qed.

(** X17. A block without any row inside a response cuts it in two: the
    separators around the empty block make up the marker, so the call
    returns only the entries of the blocks before it, fewer than there
    were texts; the blocks after it stay buffered and are what the next
    call returns, whatever its own texts. *)
Theorem empty_block_cuts_response :
  forall tweets1 tweets2 w1 w2 st blocks1 blocks2 rest rs1 rs2,
    Forall (Forall valid) tweets1 -> Forall (Forall valid) tweets2 ->
    write_error w1 = None -> write_error w2 = None ->
    blocks1 <> [] -> Forall rows_ok blocks1 ->
    blocks2 <> [] -> Forall rows_ok blocks2 ->
    stream_of w1 st
    = utf8 (response_text (blocks1 ++ [] :: blocks2)) ++ marker ++ rest ->
    output w2 = [] ->
    rmap (rmap row_value) blocks1 = Ret rs1 ->
    rmap (rmap row_value) blocks2 = Ret rs2 ->
    fst (batch tweets1 w1 st) = Ret rs1
    /\ (length rs1 < length (blocks1 ++ [] :: blocks2))%nat
    /\ fst (batch tweets2 w2 (snd (batch tweets1 w1 st))) = Ret rs2.
Proof.
  intros tweets1 tweets2 w1 w2 st blocks1 blocks2 rest rs1 rs2
         Hv1 Hv2 Hw1 Hw2 Hne1 Hok1 Hne2 Hok2 Hst1 Hout Hrs1 Hrs2.
  pose proof (request_of_valid tweets1 Hv1) as He1.
  pose proof (request_of_valid tweets2 Hv2) as He2.
  rewrite (response_with_empty_block blocks1 blocks2 Hne1 Hne2) in Hst1.
  rewrite <- !app_assoc in Hst1.
  assert (Hs1 : search marker (stream_of w1 st)
                = Some (utf8 (response_text blocks1),
                        CRLF ++ utf8 (response_text blocks2)
                        ++ marker ++ rest)).
  { rewrite Hst1.
    apply (search_after_prefix [] blocks1); [left; reflexivity| |];
      assumption. }
  destruct (batch_marker tweets1 w1 st _ _ _ He1 Hw1 Hs1) as [E1 _].
  destruct (batch_marker_state tweets1 w1 st _ _ _ He1 Hw1 Hs1) as [B1 _].
  set (st1 := snd (batch tweets1 w1 st)) in *.
  assert (In1 : In CRLF harmless_prefixes) by (right; left; reflexivity).
  assert (Hs2 : search marker (stream_of w2 st1)
                = Some (CRLF ++ utf8 (response_text blocks2), rest)).
  { unfold stream_of at 1. rewrite B1, Hout, app_nil_r.
    apply (search_after_prefix CRLF blocks2 rest In1 Hne2 Hok2). }
  destruct (batch_marker tweets2 w2 st1 _ _ _ He2 Hw2 Hs2) as [E2 _].
  split; [|split].
  - rewrite E1.
    apply (eq_trans (parse_response [] blocks1 (or_introl eq_refl) Hne1 Hok1)).
    exact Hrs1.
  - rewrite (rmap_length _ _ _ _ _ Hrs1), length_app. simpl. lia.
  - rewrite E2, (parse_response CRLF blocks2 In1 Hne2 Hok2). exact Hrs2.
Qed.

Lemma empty_block_cuts_response_witness :
  let tweets := [lit "hello"; []; lit "you"] in
  let row t := {| row_tokens := lit t; row_tags := lit "G";
                  row_confidence := lit "0.5" |} in
  let answer t := lit t ++ [TAB] ++ lit "G" ++ [TAB] ++ lit "0.5" in
  let w1 := {| write_error := None;
               output := answer "hello"%string ++ CRLFCRLF ++ CRLFCRLF
                         ++ answer "you"%string ++ marker;
               stream_end := TIMEOUT |} in
  let w2 := {| write_error := None; output := []; stream_end := TIMEOUT |} in
  let half := S754_finite false 4503599627370496 (-53) in
  let rs1 : list (list record) := [[(lit "hello", lit "G", half)]] in
  let rs2 : list (list record) := [[(lit "you", lit "G", half)]] in
  fst (batch tweets w1 fresh) = Ret rs1
  /\ (length rs1
      < length ([[row "hello"%string]] ++ [] :: [[row "you"%string]]))%nat
  /\ fst (batch [lit "next"] w2 (snd (batch tweets w1 fresh))) = Ret rs2.
Proof.
  intros tweets row answer w1 w2 half rs1 rs2.
  apply (empty_block_cuts_response tweets [lit "next"] w1 w2 fresh
           [[row "hello"%string]] [[row "you"%string]] [] rs1 rs2).
  - unfold valid. repeat (apply Forall_cons || apply Forall_nil || split);
      reflexivity.
  - unfold valid. repeat (apply Forall_cons || apply Forall_nil || split);
      reflexivity.
  - reflexivity.
  - reflexivity.
  - discriminate.
  - unfold rows_ok, row_ok, plain, valid.
    repeat (apply Forall_cons || apply Forall_nil || split);
      try discriminate; reflexivity.
  - discriminate.
  - unfold rows_ok, row_ok, plain, valid.
    repeat (apply Forall_cons || apply Forall_nil || split);
      try discriminate; reflexivity.
  - reflexivity.
  - reflexivity.
  - reflexivity.
  - reflexivity.
Defined.

(** * The claim on the blocks without a record *)


Lemma absent_clean :
  forall sep x, absent sep x -> clean_before sep x [] = true.
Proof.
  unfold absent. induction x as [|c x IH]; intros H.
  - reflexivity.
  - rewrite search_unfold in H.
    destruct (starts_with sep (c :: x)) eqn:E; [discriminate|].
    cbn [clean_before]. rewrite app_nil_r, E. cbn [negb andb].
    apply IH. destruct (search sep x) as [[pre post]|];
      [discriminate|reflexivity].
Qed.

Lemma line_ok_solid : forall l, line_ok l -> solid l.
Proof.
  intros l (Hs & _ & _ & Hcr). split; [|exact Hcr].
  destruct l; [contradiction|discriminate].
Qed.

Lemma line_ok_strip : forall l, line_ok l -> str_strip l = l.
Proof.
  intros l (Hs & He & _). unfold str_strip.
  rewrite lstrip_id.
  - apply rstrip_id. apply (ends_ok_impl plain _ _ plain_not_space He).
  - apply (starts_ok_impl plain _ _ plain_not_space Hs).
Qed.

(** The rows the parser finds in a block are its lines, and those it
    keeps are the lines with two tabs. *)
Lemma lines_rows :
  forall b, lines_ok b -> shaped_rows (str_join CRLF b) = filter shaped b.
Proof.
  intros b [Hne H]. unfold shaped_rows.
  rewrite split_rows; [|exact Hne|apply (Forall_impl _ line_ok_solid H)].
  f_equal. clear Hne. induction H as [|l b Hl _ IH]; [reflexivity|].
  cbn [map]. rewrite (line_ok_strip l Hl), IH. reflexivity.
Qed.

Lemma lines_parse :
  forall b, lines_ok b ->
    _parse_raw_result (str_join CRLF b) = rmap row_record (filter shaped b).
Proof.
  intros b H. rewrite parse_raw_result_rmap, (lines_rows b H). reflexivity.
Qed.

Lemma block_lines_starts :
  forall b, lines_ok b -> starts_ok plain (str_join CRLF b).
Proof.
  intros b [Hne H]. apply starts_ok_join; [exact Hne|].
  apply (Forall_impl _ (P := line_ok)); [|exact H]. intros l Hl. apply Hl.
Qed.

Lemma block_lines_ends :
  forall b, lines_ok b -> ends_ok plain (str_join CRLF b).
Proof.
  intros b [Hne H]. apply ends_ok_join; [exact Hne|].
  apply (Forall_impl _ (P := line_ok)); [|exact H]. intros l Hl. apply Hl.
Qed.

Lemma lines_text_starts :
  forall blocks, blocks <> [] -> Forall lines_ok blocks ->
    starts_ok plain (lines_text blocks).
Proof.
  intros blocks Hne H. unfold lines_text. apply starts_ok_join.
  - destruct blocks; [contradiction|discriminate].
  - apply Forall_map. apply (Forall_impl _ block_lines_starts H).
Qed.

Lemma lines_text_ends :
  forall blocks, blocks <> [] -> Forall lines_ok blocks ->
    ends_ok plain (lines_text blocks).
Proof.
  intros blocks Hne H. unfold lines_text. apply ends_ok_join.
  - destruct blocks; [contradiction|discriminate].
  - apply Forall_map. apply (Forall_impl _ block_lines_ends H).
Qed.

Lemma lines_text_valid :
  forall blocks, Forall lines_ok blocks -> Forall valid (lines_text blocks).
Proof.
  intros blocks H. unfold lines_text. apply Forall_str_join.
  - repeat constructor.
  - apply Forall_map. apply (Forall_impl _ (P := lines_ok)); [|exact H].
    intros b [_ Hb]. apply Forall_str_join.
    + repeat constructor.
    + apply (Forall_impl _ (P := line_ok)); [|exact Hb].
      intros l Hl. apply Hl.
Qed.

Lemma lines_text_blocks :
  forall blocks, blocks <> [] -> Forall lines_ok blocks ->
    split_go CRLFCRLF 0 [] (lines_text blocks) = map (str_join CRLF) blocks.
Proof.
  intros blocks Hne H. apply split_blocks; [exact Hne|].
  apply (Forall_impl _ (P := lines_ok)); [|exact H].
  intros b [Hb1 Hb2]. split; [exact Hb1|].
  apply (Forall_impl _ line_ok_solid Hb2).
Qed.

Lemma utf8_lines_text :
  forall blocks, utf8 (lines_text blocks) = lines_text (map (map utf8) blocks).
Proof.
  intros blocks. unfold lines_text. rewrite utf8_join.
  change (utf8 CRLFCRLF) with CRLFCRLF. f_equal.
  rewrite !map_map. apply map_ext. intros b.
  rewrite utf8_join. reflexivity.
Qed.

(** The marker that follows such a response is the first one of the
    stream. *)
Lemma search_after_lines :
  forall blocks rest,
    Forall lines_ok blocks ->
    search marker (utf8 (lines_text blocks) ++ marker ++ rest)
    = Some (utf8 (lines_text blocks), rest).
Proof.
  intros blocks rest H. apply search_clean.
  rewrite utf8_lines_text. unfold lines_text. apply clean_blocks.
  apply Forall_map. apply (Forall_impl _ (P := lines_ok)); [|exact H].
  intros b [Hb1 Hb2]. split.
  - destruct b; [contradiction|discriminate].
  - apply Forall_map. apply (Forall_impl _ (P := line_ok)); [|exact Hb2].
    intros l Hl. apply utf8_solid; [apply line_ok_solid; exact Hl|apply Hl].
Qed.

(** Cleaning leaves such a response as it is when the banner does not
    occur in it. *)
Lemma cleaned_lines_text :
  forall blocks,
    blocks <> [] -> Forall lines_ok blocks ->
    absent banner (lines_text blocks) ->
    cleaned_response (utf8 (lines_text blocks)) = Ret (lines_text blocks).
Proof.
  intros blocks Hne H Hb. unfold cleaned_response, bytes_strip.
  rewrite lstrip_id by (apply utf8_starts, lines_text_starts; assumption).
  rewrite rstrip_id by (apply utf8_ends, lines_text_ends; assumption).
  rewrite utf8_decode_utf8 by (apply lines_text_valid; exact H).
  cbn [rbind str_split banner].
  rewrite split_go_last by (apply absent_clean; exact Hb).
  cbn [str_join]. unfold str_strip.
  rewrite lstrip_id.
  - rewrite rstrip_id; [reflexivity|].
    apply (ends_ok_impl plain _ _ plain_not_space).
    apply lines_text_ends; assumption.
  - apply (starts_ok_impl plain _ _ plain_not_space).
    apply lines_text_starts; assumption.
Qed.

(** What [batch] returns for such a response: block by block, the
    records of the lines with two tabs. *)
Lemma lines_response :
  forall tweets w st data blocks rest,
    request_of tweets = Ret data ->
    write_error w = None ->
    blocks <> [] -> Forall lines_ok blocks ->
    absent banner (lines_text blocks) ->
    stream_of w st = utf8 (lines_text blocks) ++ marker ++ rest ->
    fst (batch tweets w st)
    = rmap (fun b => rmap row_record (filter shaped b)) blocks.
Proof.
  intros tweets w st data blocks rest Hdata Hw Hne Hok Hb Hstream.
  assert (Hs : search marker (stream_of w st)
               = Some (utf8 (lines_text blocks), rest)).
  { rewrite Hstream. apply search_after_lines. exact Hok. }
  destruct (batch_marker tweets w st data _ _ Hdata Hw Hs) as [E _].
  rewrite E. unfold response_blocks.
  rewrite (cleaned_lines_text blocks Hne Hok Hb).
  cbn [rbind str_split CRLFCRLF].
  rewrite (lines_text_blocks blocks Hne Hok), rmap_map.
  apply (rmap_ext_Forall _ _ _ _ lines_ok); [|exact Hok].
  intros b Hl. apply lines_parse. exact Hl.
Qed.

Lemma two_tab_lines_parse :
  forall rows,
    (forall l, In l rows -> str_count [TAB] l = 2%nat ->
       exists f, py_float (third_field l) = Ret f) ->
    exists recs, rmap row_record (filter shaped rows) = Ret recs.
Proof.
  intros rows H.
  destruct (rmap_Forall2 _ _ row_record (fun _ _ => True)
              (filter shaped rows)) as (recs & E & _).
  - intros l Hl. apply filter_In in Hl. destruct Hl as [Hin Hs].
    destruct (shaped_three_parts l Hs) as (a & b & c & Hparts).
    destruct (H l Hin) as [f Hf].
    { unfold shaped in Hs. apply andb_true_iff in Hs.
      apply Nat.eqb_eq. apply Hs. }
    unfold third_field in Hf. rewrite Hparts in Hf. cbn [nth] in Hf.
    exists (a, b, f). split; [|exact I].
    rewrite (row_record_parts _ _ _ _ Hparts), Hf. reflexivity.
  - exists recs. exact E.
Qed.

Lemma no_two_tabs_no_shaped :
  forall b,
    Forall (fun l => str_count [TAB] l <> 2%nat) b -> filter shaped b = [].
Proof.
  induction 1 as [|l b Hl _ IH]; [reflexivity|].
  cbn [filter]. unfold shaped at 1.
  apply Nat.eqb_neq in Hl. rewrite Hl, andb_false_r. exact IH.
Qed.


